(** * The news aggregation pipeline of [services/newsService.ts]

    A shallow embedding of [getFallbackImage], [analyzeSentiment],
    [checkForBreakingContext], [formatTime] and [fetchMarketNews], followed by
    the properties the specification states about them.

    Conventions of the embedding.
    - A JavaScript string is a [string]; each [ascii] is one code unit (the
      embedding covers code units 0..255).  Functions over code units take a
      [list Z] where a property is wanted for every UTF-16 string.
    - A JavaScript number that holds a time is a [jsnum]: [NaN] or an integer
      (epoch milliseconds are integers and exact as doubles).
    - Whatever the program reads from its surroundings (the clock, the date
      parser and formatter of the engine, the answers of the feed proxy, the
      quota of the storage) is a field of a [host] record; the content of
      [localStorage] is explicit state. *)

From Stdlib Require Import ZArith List String Ascii Bool Lia DecimalString.
From Stdlib Require Import Sorting.Sorted Sorting.Permutation.
Import ListNotations.

Local Open Scope string_scope.
Local Open Scope list_scope.
Local Open Scope Z_scope.

(** ** JavaScript strings *)

Module JsString.

(** [s.charCodeAt(i)] for [i] inside the string; [None] stands for the [NaN]
    it gives outside. *)
Definition charCodeAt (s : string) (i : nat) : option Z :=
  option_map (fun c => Z.of_N (N_of_ascii c)) (String.get i s).

(** The code units of a string, first to last. *)
Fixpoint charCodes (s : string) : list Z :=
  match s with
  | EmptyString => []
  | String c r => Z.of_N (N_of_ascii c) :: charCodes r
  end.

(** [hay.startsWith(needle)]. *)
Fixpoint startsWith (needle hay : string) : bool :=
  match needle, hay with
  | EmptyString, _ => true
  | String _ _, EmptyString => false
  | String a n, String b h => Ascii.eqb a b && startsWith n h
  end.

(** [hay.includes(needle)]: [needle] starts at some position of [hay]. *)
Fixpoint includes (hay needle : string) : bool :=
  startsWith needle hay ||
  match hay with
  | EmptyString => false
  | String _ h => includes h needle
  end.

(** [s.slice(0, n)]. *)
Fixpoint slice0 (n : nat) (s : string) : string :=
  match n, s with
  | O, _ => EmptyString
  | _, EmptyString => EmptyString
  | S k, String c r => String c (slice0 k r)
  end.

(** [n] code units dropped from the front. *)
Fixpoint drop (n : nat) (s : string) : string :=
  match n, s with
  | O, _ => s
  | _, EmptyString => EmptyString
  | S k, String _ r => drop k r
  end.

(** One code unit of [toLowerCase]: A-Z, and the Latin-1 capitals
    (U+00C0..U+00DE but the multiplication sign U+00D7), move up by 32. *)
Definition lowerUnit (c : ascii) : ascii :=
  let n := N_of_ascii c in
  if ((65 <=? n) && (n <=? 90) || (192 <=? n) && (n <=? 222) && negb (n =? 215))%N
  then ascii_of_N (n + 32) else c.

Fixpoint toLowerCase (s : string) : string :=
  match s with
  | EmptyString => EmptyString
  | String c r => String (lowerUnit c) (toLowerCase r)
  end.

(** [s.replace(/<[^>]*>?/gm, '')].  A match starts at every [<] met while
    scanning, runs over everything that is not [>] and takes the closing [>]
    when there is one; an unclosed [<] swallows the rest of the string.
    [inTag] tells whether the scan is inside a match. *)
Fixpoint stripTagsFrom (inTag : bool) (s : string) : string :=
  match s with
  | EmptyString => EmptyString
  | String c r =>
      if inTag
      then (if Ascii.eqb c ">" then stripTagsFrom false r else stripTagsFrom true r)
      else (if Ascii.eqb c "<" then stripTagsFrom true r
            else String c (stripTagsFrom false r))
  end.

Definition stripTags (s : string) : string := stripTagsFrom false s.

(** [s.replace(/&nbsp;/g, ' ')]: every occurrence, left to right, a match
    consumed whole.  [skip] counts the code units of the current match still to
    be dropped. *)
Fixpoint replaceNbspFrom (skip : nat) (s : string) : string :=
  match s with
  | EmptyString => EmptyString
  | String c r =>
      match skip with
      | S k => replaceNbspFrom k r
      | O => if startsWith "&nbsp;" s
             then String " " (replaceNbspFrom 5 r)
             else String c (replaceNbspFrom 0 r)
      end
  end.

Definition replaceNbsp (s : string) : string := replaceNbspFrom 0 s.

(** The two characters of the class in the pattern: the double quote (code
    unit 34) and the apostrophe (39). *)
Definition isQuote (c : ascii) : bool :=
  (N_of_ascii c =? 34)%N || (N_of_ascii c =? 39)%N.

(** The text up to the next quote of either kind, when there is one: what the
    group and the closing quote of the pattern match at the start of [s]. *)
Fixpoint untilQuote (s : string) : option string :=
  match s with
  | EmptyString => None
  | String c r =>
      if isQuote c then Some EmptyString
      else option_map (String c) (untilQuote r)
  end.

(** Group 1 of the first match in [s] of the image pattern (the text [src=],
    a quote, a run of non-quotes captured as group 1, a quote); [None] when
    [match] gives [null]. *)
Fixpoint matchSrc (s : string) : option string :=
  match s with
  | EmptyString => None
  | String _ r =>
      let here :=
        if startsWith "src=" s then
          match drop 4 s with
          | String q body => if isQuote q then untilQuote body else None
          | EmptyString => None
          end
        else None in
      match here with
      | Some url => Some url
      | None => matchSrc r
      end
  end.

End JsString.

(** ** The placeholder palette and its hash *)

Definition FALLBACK_IMAGES : list string :=
  [ "https://images.unsplash.com/photo-1611974765270-ca1258634369?auto=format&fit=crop&q=80&w=1000";
    "https://images.unsplash.com/photo-1590283603385-17ffb3a7f29f?auto=format&fit=crop&q=80&w=1000";
    "https://images.unsplash.com/photo-1642543492481-44e81e3914a7?auto=format&fit=crop&q=80&w=1000";
    "https://images.unsplash.com/photo-1621504450168-38f647319680?auto=format&fit=crop&q=80&w=1000";
    "https://images.unsplash.com/photo-1614028674026-a65e31bfd27c?auto=format&fit=crop&q=80&w=1000";
    "https://images.unsplash.com/photo-1565514020176-dbf22384914e?auto=format&fit=crop&q=80&w=1000";
    "https://images.unsplash.com/photo-1526304640152-d4619684e484?auto=format&fit=crop&q=80&w=1000" ].

(** [ToInt32]: the integer modulo 2^32, read as a signed 32-bit value. *)
Definition toInt32 (z : Z) : Z :=
  let m := z mod 2 ^ 32 in
  if 2 ^ 31 <=? m then m - 2 ^ 32 else m.

(** [x << k] of JavaScript: both the operand and the result are 32-bit. *)
Definition shl32 (x : Z) (k : Z) : Z := toInt32 (Z.shiftl (toInt32 x) k).

(** One turn of the loop body: [seed.charCodeAt(i) + ((hash << 5) - hash)].
    Only the shift wraps; the sum is an ordinary number. *)
Definition hashStep (hash code : Z) : Z := code + (shl32 hash 5 - hash).

(** The loop [for (let i = 0; i < seed.length; i++)], with one unit of [fuel]
    for each turn it can take. *)
Fixpoint hashLoop (fuel : nat) (seed : string) (i : nat) (hash : Z) : Z :=
  match fuel with
  | O => hash
  | S fuel' =>
      if (i <? String.length seed)%nat then
        match JsString.charCodeAt seed i with
        | Some code => hashLoop fuel' seed (S i) (hashStep hash code)
        | None => hash
        end
      else hash
  end.

Definition seedHash (seed : string) : Z :=
  hashLoop (String.length seed) seed 0%nat 0.

(** [Math.abs(hash) % FALLBACK_IMAGES.length]; [%] is the truncating
    remainder. *)
Definition fallbackIndex (hash : Z) : Z :=
  Z.rem (Z.abs hash) (Z.of_nat (List.length FALLBACK_IMAGES)).

(** [getFallbackImage]; [None] stands for the [undefined] an index outside the
    palette would give. *)
Definition getFallbackImage (seed : string) : option string :=
  nth_error FALLBACK_IMAGES (Z.to_nat (fallbackIndex (seedHash seed))).

(** The hash as the specification words it: accumulate
    [hash = char_code + ((hash << 5) - hash)] per character, starting from 0. *)
Definition rollingHash (codes : list Z) : Z :=
  fold_left (fun hash code => code + (shl32 hash 5 - hash)) codes 0.

(** ... then reduce the absolute value modulo the palette size. *)
Definition paletteIndex (codes : list Z) : nat :=
  Z.to_nat (Z.abs (rollingHash codes) mod Z.of_nat (List.length FALLBACK_IMAGES)).

(** ** The signal classifier *)

Inductive Sentiment := Bullish | Bearish | Neutral.

Definition bullish : list string :=
  [ "soars"; "jumps"; "rallies"; "gains"; "bull"; "buy"; "support hold";
    "breakout"; "higher"; "hawkish"; "beats"; "positive"; "upgrade"; "surges";
    "records"; "recovers"; "record high" ].

Definition bearish : list string :=
  [ "plunges"; "dives"; "drops"; "falls"; "bear"; "sell"; "resistance";
    "breakdown"; "lower"; "dovish"; "misses"; "negative"; "downgrade";
    "retreats"; "crash"; "sinks"; "lows" ].

Definition highImpactKeywords : list string :=
  [ "fed "; "federal reserve"; "fomc"; "powell";
    "ecb"; "lagarde"; "boj"; "ueda";
    "cpi"; "nfp"; "rate decision"; "hike"; "cut"; "rates";
    "breaking"; "urgent"; "alert"; "war"; "invasion" ].

Definition analyzeSentiment (text : string) : Sentiment :=
  let t := JsString.toLowerCase text in
  if existsb (fun w => JsString.includes t w) bullish then Bullish
  else if existsb (fun w => JsString.includes t w) bearish then Bearish
  else Neutral.

Definition checkForBreakingContext (text : string) : bool :=
  let t := JsString.toLowerCase text in
  existsb (fun k => JsString.includes t k) highImpactKeywords.

(** ** The data model *)

(** A number that holds a time: [new Date(x).getTime()] is an integer of
    milliseconds or [NaN]. *)
Inductive jsnum := NaN | Fin (ms : Z).

(** [x > y] on numbers: false as soon as one side is [NaN]. *)
Definition num_gt (x : jsnum) (y : Z) : bool :=
  match x with
  | NaN => false
  | Fin t => y <? t
  end.

(** [NewsArticle] of [types.ts], with the fields the pipeline fills.  A field
    the pipeline may leave [undefined] is an [option]. *)
Record NewsArticle := {
  id : string;
  headline : option string;
  summary : string;
  category : string;
  publishedAt : jsnum;
  timestamp : string;
  author : string;
  imageUrl : option string;
  url : option string;
  fullContent : option string;
  isBreaking : bool;
  sentiment : Sentiment
}.

(** One entry of [FEED_SOURCES]. *)
Record FeedSource := {
  feedUrl : string;
  feedCategory : string;
  sourceName : string;
  priority : Z
}.

Definition FEED_SOURCES : list FeedSource :=
  [ {| feedUrl := "https://www.forexlive.com/feed";
       feedCategory := "Sentiment"; sourceName := "ForexLive"; priority := 1 |};
    {| feedUrl := "https://www.fxstreet.com/rss/news";
       feedCategory := "Squawk"; sourceName := "FXStreet"; priority := 2 |};
    {| feedUrl := "https://feeds.finance.yahoo.com/rss/2.0/headline?s=EURUSD=X,GBPUSD=X,JPY=X,BTC-USD,GC=F";
       feedCategory := "Markets"; sourceName := "Yahoo Finance"; priority := 3 |};
    {| feedUrl := "https://cointelegraph.com/rss";
       feedCategory := "Crypto"; sourceName := "CoinTelegraph"; priority := 4 |} ].

Definition ONE_WEEK_MS : Z := 7 * 24 * 60 * 60 * 1000.

(** A raw feed item as the conversion service documents it: an object whose
    fields, when present, are strings.  [enclosureLink] is
    [item.enclosure?.link]. *)
Record RawItem := {
  title : option string;
  description : option string;
  content : option string;
  pubDate : option string;
  link : option string;
  guid : option string;
  thumbnail : option string;
  enclosureLink : option string;
  itemAuthor : option string
}.

(** What [data.items || []] can be. *)
Inductive ItemsField :=
| ItemsFalsy                       (* absent, null, 0, false or the empty string *)
| ItemsNotArray                    (* a truthy value that has no forEach *)
| ItemsArray (l : list RawItem).

(** How the request for one source ends. *)
Inductive Response :=
| NetworkError                     (* fetch rejects *)
| MalformedBody                    (* res.json() rejects: the body is not JSON *)
| NullBody                         (* the body is the JSON null: data.status throws *)
| Body (status : option string) (items : ItemsField).
                                   (* any other JSON value; a value without a
                                      string status has [None] *)

(** Truthiness of a string that may be [undefined]. *)
Definition truthy (o : option string) : bool :=
  match o with
  | Some s => negb (String.eqb s "")
  | None => false
  end.

(** [a || b] on such values. *)
Definition orElse (a b : option string) : option string :=
  if truthy a then a else b.

(** String conversion, as in a template literal or a [+] with a string. *)
Definition toStr (o : option string) : string :=
  match o with
  | Some s => s
  | None => "undefined"
  end.

(** ** The storage *)

(** The string kept under [STORAGE_KEY], told apart by what the program can
    observe of it: its truthiness and what [JSON.parse] makes of it. *)
Inductive Blob :=
| Blank                            (* the empty string *)
| Garbage                          (* JSON.parse throws a SyntaxError *)
| NotAList                         (* parses to a value that has no forEach *)
| Archived (l : list NewsArticle). (* parses to an array of articles *)

(** [localStorage]: the value under [STORAGE_KEY] ([None] when [getItem] gives
    [null]) and, as a ghost field, every list handed to [setItem] so far,
    oldest first. *)
Record Storage := {
  stored : option Blob;
  setItemCalls : list (list NewsArticle)
}.

Definition emptyStorage : Storage := {| stored := None; setItemCalls := [] |}.

(** ** The host *)

Record host := {
  (** [Date.now()], and the [new Date()] of [formatTime] *)
  now : Z;
  (** [new Date(s).getTime()] for a string [s] *)
  parseDate : string -> jsnum;
  (** [getDate()], [getMonth()] and [getFullYear()] of a valid date *)
  localDay : Z -> Z * Z * Z;
  (** [toLocaleTimeString([], {hour: '2-digit', minute: '2-digit'})] *)
  localeTime : Z -> string;
  (** [toLocaleDateString([], {month: 'short', day: 'numeric'})] *)
  localeDate : Z -> string;
  (** how the request for the feed at a given url ends *)
  fetchFeed : string -> Response;
  (** whether [localStorage.setItem], called on a given storage, refuses a
      list (quota exceeded) *)
  quotaExceeded : Storage -> list NewsArticle -> bool
}.

(** [new Date(item.pubDate).getTime()]: an absent date gives an invalid
    [Date]. *)
Definition getTime (h : host) (d : option string) : jsnum :=
  match d with
  | Some s => parseDate h s
  | None => NaN
  end.

(** [formatTime].  On an invalid date every getter is [NaN], so [isToday] is
    false, and [toLocaleDateString] gives the text [Invalid Date]. *)
Definition formatTime (h : host) (date : jsnum) : string :=
  match date with
  | NaN => "Invalid Date"
  | Fin t =>
      let '(d, m, y) := localDay h t in
      let '(d0, m0, y0) := localDay h (now h) in
      let isToday := (d =? d0) && (m =? m0) && (y =? y0) in
      if isToday then localeTime h t else localeDate h t
  end.

(** ** The content normalizer: the body of [items.forEach] *)

(** Steps (a) to (c) of the image resolution. *)
Definition extractImage (item : RawItem) : option string :=
  let imageUrl := thumbnail item in
  let imageUrl :=
    if negb (truthy imageUrl) && truthy (enclosureLink item)
    then enclosureLink item else imageUrl in
  if negb (truthy imageUrl) then
    let imgMatch :=
      match option_map JsString.matchSrc (content item) with
      | Some (Some g) => Some g
      | _ => match option_map JsString.matchSrc (description item) with
             | Some (Some g) => Some g
             | _ => None
             end
      end in
    match imgMatch with
    | Some g => Some g
    | None => imageUrl
    end
  else imageUrl.

Definition summaryClean (item : RawItem) : string :=
  if truthy (description item)
  then (JsString.slice0 250
          (JsString.replaceNbsp (JsString.stripTags (toStr (description item))))
        ++ "...")%string
  else "".

Definition uniqueId (config : FeedSource) (item : RawItem) : string :=
  if truthy (guid item) then toStr (guid item)
  else if truthy (link item) then toStr (link item)
  else (sourceName config ++ "-" ++ toStr (title item))%string.

Definition normalize (h : host) (config : FeedSource) (item : RawItem) : NewsArticle :=
  let imageUrl := extractImage item in
  let uid := uniqueId config item in
  let date := getTime h (pubDate item) in
  let imageUrl :=
    if negb (truthy imageUrl)
       || JsString.includes (toStr imageUrl) "feedburner"
       || JsString.includes (toStr imageUrl) "ads"
    then getFallbackImage (if truthy (title item) then toStr (title item) else uid)
    else imageUrl in
  let textContent := (toStr (title item) ++ " " ++ summaryClean item)%string in
  {| id := uid;
     headline := title item;
     summary := summaryClean item;
     category := feedCategory config;
     publishedAt := date;
     timestamp := formatTime h date;
     author := if truthy (itemAuthor item) then toStr (itemAuthor item)
               else sourceName config;
     imageUrl := imageUrl;
     url := link item;
     fullContent := orElse (content item) (description item);
     isBreaking := checkForBreakingContext textContent;
     sentiment := analyzeSentiment textContent |}.

(** ** Exceptions and the small monad that threads them with the storage *)

(** How a piece of code ends: with a value, or by throwing. *)
Inductive Completion (A : Type) :=
| Normal (a : A)
| Thrown.

Arguments Normal {A} a.
Arguments Thrown {A}.

Definition Js (A : Type) : Type := Storage -> Completion A * Storage.

Definition ret {A} (a : A) : Js A := fun st => (Normal a, st).

Definition throw {A} : Js A := fun st => (Thrown, st).

Definition bind {A B} (m : Js A) (k : A -> Js B) : Js B :=
  fun st =>
    match m st with
    | (Normal a, st') => k a st'
    | (Thrown, st') => (Thrown, st')
    end.

(** [try { body } catch (e) { handler }]. *)
Definition tryCatch {A} (body handler : Js A) : Js A :=
  fun st =>
    match body st with
    | (Normal a, st') => (Normal a, st')
    | (Thrown, st') => handler st'
    end.

(** A computation that does not touch the storage. *)
Definition lift {A} (c : Completion A) : Js A := fun st => (c, st).

Declare Scope js_scope.
Delimit Scope js_scope with js.
Notation "x <- m ;; k" := (bind m (fun x => k))
  (at level 61, m at next level, right associativity) : js_scope.
Notation "m ;;; k" := (bind m (fun _ => k))
  (at level 61, right associativity) : js_scope.

(** [localStorage.getItem(STORAGE_KEY)]. *)
Definition getItem : Js (option Blob) := fun st => (Normal (stored st), st).

(** [localStorage.setItem(STORAGE_KEY, JSON.stringify(l))]: the list is
    written, or the call throws and the stored value stays. *)
Definition setItem (h : host) (l : list NewsArticle) : Js unit :=
  fun st =>
    let calls := setItemCalls st ++ [l] in
    if quotaExceeded h st l
    then (Thrown, {| stored := stored st; setItemCalls := calls |})
    else (Normal tt, {| stored := Some (Archived l); setItemCalls := calls |}).

(** What [JSON.parse] gives on a stored string. *)
Inductive Parsed :=
| PList (l : list NewsArticle)
| POther.

Definition JSON_parse (b : Blob) : Completion Parsed :=
  match b with
  | Blank | Garbage => Thrown
  | NotAList => Normal POther
  | Archived l => Normal (PList l)
  end.

(** Truthiness of what [getItem] gave. *)
Definition present (s : option Blob) : bool :=
  match s with
  | None | Some Blank => false
  | Some _ => true
  end.

(** ** The aggregation *)

(** What each promise of [feedPromises] resolves to. *)
Record FeedResult := {
  status : option string;
  items : ItemsField;
  config : FeedSource
}.

(** The chain [fetch(..).then(res => res.json()).then(..).catch(..)]. *)
Definition settle (src : FeedSource) (r : Response) : FeedResult :=
  match r with
  | NetworkError | MalformedBody | NullBody =>
      {| status := Some "error"; items := ItemsArray []; config := src |}
  | Body st it =>
      {| status := st;
         items := match it with ItemsFalsy => ItemsArray [] | _ => it end;
         config := src |}
  end.

Definition feedResults (h : host) (sources : list FeedSource) : list FeedResult :=
  map (fun src => settle src (fetchFeed h (feedUrl src))) sources.

Definition isOk (st : option string) : bool :=
  match st with
  | Some s => String.eqb s "ok"
  | None => false
  end.

(** One turn of [results.forEach]: the articles pushed onto [freshArticles],
    or the TypeError of calling a [forEach] that is not there. *)
Definition pushResult (h : host) (fresh : list NewsArticle) (r : FeedResult)
  : Completion (list NewsArticle) :=
  if isOk (status r) then
    match items r with
    | ItemsArray l => Normal (fresh ++ map (normalize h (config r)) l)
    | ItemsNotArray | ItemsFalsy => Thrown
    end
  else Normal fresh.

Fixpoint pushResults (h : host) (fresh : list NewsArticle) (rs : list FeedResult)
  : Completion (list NewsArticle) :=
  match rs with
  | [] => Normal fresh
  | r :: rest =>
      match pushResult h fresh r with
      | Normal fresh' => pushResults h fresh' rest
      | Thrown => Thrown
      end
  end.

(** Step 1: [freshArticles] once [results.forEach] is over. *)
Definition freshArticles (h : host) (sources : list FeedSource)
  : Completion (list NewsArticle) :=
  pushResults h [] (feedResults h sources).

(** Step 2: the guarded load; [archivedArticles] stays [[]] when nothing
    truthy is stored or when parsing throws. *)
Definition loadArchive : Js Parsed :=
  tryCatch
    (s <- getItem ;;
     match s with
     | Some b => if present s then lift (JSON_parse b) else ret (PList [])
     | None => ret (PList [])
     end)%js
    (ret (PList [])).

(** [articleMap.set(a.id, a)] on a [Map] kept in insertion order: a key
    already there keeps its place and takes the new value. *)
Fixpoint mapSet (m : list (string * NewsArticle)) (k : string) (v : NewsArticle)
  : list (string * NewsArticle) :=
  match m with
  | [] => [(k, v)]
  | (k', v') :: rest =>
      if String.eqb k' k then (k', v) :: rest else (k', v') :: mapSet rest k v
  end.

Definition setAll (m : list (string * NewsArticle)) (l : list NewsArticle)
  : list (string * NewsArticle) :=
  fold_left (fun m a => mapSet m (id a) a) l m.

(** Step 3: the archive first, then the fresh articles over it. *)
Definition articleMap (archived fresh : list NewsArticle)
  : list (string * NewsArticle) :=
  setAll (setAll [] archived) fresh.

Definition mapValues (m : list (string * NewsArticle)) : list NewsArticle :=
  map snd m.

(** The comparator [(a, b) => b.publishedAt - a.publishedAt]; [None] is the
    [NaN] a subtraction with [NaN] gives. *)
Definition compareFn (a b : NewsArticle) : option Z :=
  match publishedAt a, publishedAt b with
  | Fin ta, Fin tb => Some (tb - ta)
  | _, _ => None
  end.

(** Whether [sort] may leave [a] before [b]: the comparator is not positive
    (a [NaN] counts as zero). *)
Definition keepsOrder (a b : NewsArticle) : bool :=
  match compareFn a b with
  | Some v => v <=? 0
  | None => true
  end.

(** [Array.prototype.sort] is stable; with this comparator its result is that
    of a stable insertion sort. *)
Fixpoint insertSorted (a : NewsArticle) (l : list NewsArticle) : list NewsArticle :=
  match l with
  | [] => [a]
  | b :: rest => if keepsOrder a b then a :: b :: rest else b :: insertSorted a rest
  end.

Definition sortArticles (l : list NewsArticle) : list NewsArticle :=
  fold_right insertSorted [] l.

(** Steps 3 and 4: [mergedArticles] for a given clock reading. *)
Definition mergedArticles (nowMs : Z) (archived fresh : list NewsArticle)
  : list NewsArticle :=
  let cutoff := nowMs - ONE_WEEK_MS in
  sortArticles
    (filter (fun a => num_gt (publishedAt a) cutoff)
       (mapValues (articleMap archived fresh))).

(** Step 5: the save, and the second attempt inside the [catch]. *)
Definition saveArchive (h : host) (merged : list NewsArticle) : Js unit :=
  tryCatch
    (setItem h merged)
    (if (200 <? List.length merged)%nat
     then setItem h (firstn 200 merged)
     else ret tt).

(** What the promise resolves to: a list, or whatever else [JSON.parse] made
    of the stored string. *)
Inductive Returned :=
| RList (l : list NewsArticle)
| ROther.

(** Steps 1 to 4 of the outer [try]: everything up to [mergedArticles]. *)
Definition mergeStep (h : host) (sources : list FeedSource) : Js (list NewsArticle) :=
  (fresh <- lift (freshArticles h sources) ;;
   parsed <- loadArchive ;;
   archived <- match parsed with
               | PList l => ret l
               | POther => throw       (* archivedArticles.forEach is not there *)
               end ;;
   ret (mergedArticles (now h) archived fresh))%js.

(** The body of the outer [try]. *)
Definition aggregate (h : host) (sources : list FeedSource) : Js (list NewsArticle) :=
  (merged <- mergeStep h sources ;;
   saveArchive h merged ;;;
   ret merged)%js.

(** The outer [catch]: [return stored ? JSON.parse(stored) : []]. *)
Definition fallback : Js Returned :=
  (s <- getItem ;;
   match s with
   | Some b =>
       if present s then
         (p <- lift (JSON_parse b) ;;
          ret (match p with PList l => RList l | POther => ROther end))
       else ret (RList [])
   | None => ret (RList [])
   end)%js.

(** [fetchMarketNews] over a list of sources; [Normal] is a promise that
    resolves, [Thrown] one that rejects. *)
Definition fetchMarketNewsFrom (sources : list FeedSource) (h : host) : Js Returned :=
  tryCatch
    (merged <- aggregate h sources ;; ret (RList merged))%js
    fallback.

Definition fetchMarketNews (h : host) : Js Returned :=
  fetchMarketNewsFrom FEED_SOURCES h.

(** Any number of refresh cycles, each under its own host, from a given
    storage: what each call returned, and the storage left behind. *)
Fixpoint runCycles (hs : list host) (st : Storage)
  : list (Completion Returned) * Storage :=
  match hs with
  | [] => ([], st)
  | h :: rest =>
      let '(r, st') := fetchMarketNews h st in
      let '(rs, st'') := runCycles rest st' in
      (r :: rs, st'')
  end.

(** ** Vocabulary of the properties *)

(** The value a [Map] holds for a key. *)
Fixpoint lookup (m : list (string * NewsArticle)) (k : string) : option NewsArticle :=
  match m with
  | [] => None
  | (k', v) :: rest => if String.eqb k' k then Some v else lookup rest k
  end.

(** The last article of a list that bears a given id: the one a sequence of
    [set] calls leaves in the map. *)
Fixpoint lookupLast (l : list NewsArticle) (k : string) : option NewsArticle :=
  match l with
  | [] => None
  | a :: rest =>
      match lookupLast rest k with
      | Some b => Some b
      | None => if String.eqb (id a) k then Some a else None
      end
  end.

(** [a.publishedAt >= b.publishedAt], both being numbers. *)
Definition newerOrEqual (a b : NewsArticle) : Prop :=
  exists ta tb, publishedAt a = Fin ta /\ publishedAt b = Fin tb /\ ta >= tb.

(** Every adjacent pair of the list is in descending order of
    [publishedAt]. *)
Definition descending (l : list NewsArticle) : Prop :=
  forall pre a b post, l = pre ++ a :: b :: post -> newerOrEqual a b.

(** Every article of the list carries a number. *)
Definition allDated (l : list NewsArticle) : Prop :=
  forall a, In a l -> exists t, publishedAt a = Fin t.

(** The archive in the storage, when there is one, is in descending order:
    what every list the pipeline writes satisfies. *)
Definition archiveSorted (st : Storage) : Prop :=
  match stored st with
  | Some (Archived l) => descending l /\ allDated l
  | _ => True
  end.

(** Storages the pipeline itself produces, starting from a browser that holds
    nothing under the key. *)
Inductive reachable : Storage -> Prop :=
| reach_empty : reachable emptyStorage
| reach_cycle : forall sources h st r st',
    reachable st ->
    fetchMarketNewsFrom sources h st = (r, st') ->
    reachable st'.

(** The map holds every article under its own id. *)
Definition keyed (m : list (string * NewsArticle)) : Prop :=
  Forall (fun kv => fst kv = id (snd kv)) m.

(** What steps 2 and 3 take from the storage: the archived list, or the
    exception of iterating over something that is not a list. *)
Definition loadedArchive (st : Storage) : Completion (list NewsArticle) :=
  match stored st with
  | Some (Archived l) => Normal l
  | Some NotAList => Thrown
  | Some Blank | Some Garbage | None => Normal []
  end.

(** The value of [mergedArticles] a call computes, when it gets that far. *)
Definition mergeResult (h : host) (sources : list FeedSource) (st : Storage)
  : Completion (list NewsArticle) :=
  match freshArticles h sources, loadedArchive st with
  | Normal fresh, Normal archived =>
      Normal (mergedArticles (now h) archived fresh)
  | _, _ => Thrown
  end.

(** The storage after [setItem] was called with each list of [ls] in turn and
    [kept] is what the last successful call, if any, wrote. *)
Definition after (st : Storage) (kept : option Blob) (ls : list (list NewsArticle))
  : Storage :=
  {| stored := kept; setItemCalls := setItemCalls st ++ ls |}.

(** Whether the second write of step 5 throws: [setItem] called with the
    first 200 merged articles, on the storage the first, failed call left. *)
Definition secondWriteThrows (h : host) (st : Storage) (merged : list NewsArticle)
  : bool :=
  quotaExceeded h (after st (stored st) [merged]) (firstn 200 merged).

(** What the outer [catch] returns, as a function of what is stored. *)
Definition fallbackResult (st : Storage) : Completion Returned :=
  match stored st with
  | None | Some Blank => Normal (RList [])
  | Some Garbage => Thrown
  | Some NotAList => Normal ROther
  | Some (Archived l) => Normal (RList l)
  end.

(** A source that fails in one of the three ways the chain of promises
    absorbs: the request fails, the body is not JSON (or is the JSON null), or
    the status is not ok. *)
Definition failedSource (r : Response) : bool :=
  match r with
  | NetworkError | MalformedBody | NullBody => true
  | Body st _ => negb (isOk st)
  end.

(** A source that succeeds: an ok status, with a list of items or none. *)
Definition succeededSource (r : Response) : bool :=
  match r with
  | Body st (ItemsArray _ | ItemsFalsy) => isOk st
  | _ => false
  end.

(** The normalized items of a source that succeeded; nothing otherwise. *)
Definition contribution (h : host) (src : FeedSource) : list NewsArticle :=
  match fetchFeed h (feedUrl src) with
  | Body st (ItemsArray l) => if isOk st then map (normalize h src) l else []
  | _ => []
  end.

Definition succeeded (h : host) (src : FeedSource) : bool :=
  succeededSource (fetchFeed h (feedUrl src)).

(** ** Concrete hosts and inputs *)

Module Scenario.

(** The civil date of a time in UTC, as [getDate()], [getMonth()] (from 0)
    and [getFullYear()] give it in that time zone. *)
Definition utcDay (t : Z) : Z * Z * Z :=
  let z := t / 86400000 + 719468 in
  let era := z / 146097 in
  let doe := z - era * 146097 in
  let yoe := (doe - doe / 1460 + doe / 36524 - doe / 146096) / 365 in
  let doy := doe - (365 * yoe + yoe / 4 - yoe / 100) in
  let mp := (5 * doy + 2) / 153 in
  let d := doy - (153 * mp + 2) / 5 + 1 in
  let m := if mp <? 10 then mp + 3 else mp - 9 in
  let y := yoe + era * 400 + (if m <=? 2 then 1 else 0) in
  (d, m - 1, y).

Definition decimal (z : Z) : string :=
  NilEmpty.string_of_uint (Nat.to_uint (Z.to_nat z)).

Definition twoDigits (z : Z) : string :=
  ((if (z <? 10)%Z then "0" else "") ++ decimal z)%string.

(** A 24-hour clock in UTC. *)
Definition utcTime (t : Z) : string :=
  (twoDigits ((t / 3600000) mod 24) ++ ":" ++ twoDigits ((t / 60000) mod 60))%string.

Definition monthName (m : Z) : string :=
  nth (Z.to_nat m)
    [ "Jan"; "Feb"; "Mar"; "Apr"; "May"; "Jun";
      "Jul"; "Aug"; "Sep"; "Oct"; "Nov"; "Dec" ] "".

Definition utcDate (t : Z) : string :=
  let '(d, m, _) := utcDay t in (monthName m ++ " " ++ decimal d)%string.

(** 2024-03-12T10:00:00Z, 2024-03-20T09:00:00Z and 2024-03-22T09:00:00Z in
    epoch milliseconds. *)
Definition march12 : Z := 1710237600000.
Definition march20 : Z := 1710925200000.
Definition march22 : Z := 1711098000000.

(** The date parser on the strings the scenarios use; any other one of them is
    not a date. *)
Definition engineParse (s : string) : jsnum :=
  if String.eqb s "2024-03-12T10:00:00Z" then Fin march12
  else if String.eqb s "2024-03-20T09:00:00Z" then Fin march20
  else if String.eqb s "2024-03-22T09:00:00Z" then Fin march22
  else NaN.

(** A browser in UTC at a given time, with given feed answers and quota. *)
Definition browser (nowMs : Z) (feed : string -> Response)
    (quota : Storage -> list NewsArticle -> bool) : host :=
  {| now := nowMs; parseDate := engineParse; localDay := utcDay;
     localeTime := utcTime; localeDate := utcDate;
     fetchFeed := feed; quotaExceeded := quota |}.

Definition forexLive : FeedSource :=
  {| feedUrl := "https://www.forexlive.com/feed";
     feedCategory := "Sentiment"; sourceName := "ForexLive"; priority := 1 |}.

Definition fxStreet : FeedSource :=
  {| feedUrl := "https://www.fxstreet.com/rss/news";
     feedCategory := "Squawk"; sourceName := "FXStreet"; priority := 2 |}.

(** Only ForexLive answers, with the given items; the other requests fail. *)
Definition onlyForexLive (l : list RawItem) (u : string) : Response :=
  if String.eqb u (feedUrl forexLive) then Body (Some "ok") (ItemsArray l)
  else NetworkError.

Definition noQuota (_ : Storage) (_ : list NewsArticle) : bool := false.
Definition storageFull (_ : Storage) (_ : list NewsArticle) : bool := true.

(** The raw item of the normalization scenario of the specification. *)
Definition scenarioItem : RawItem :=
  {| title := Some "EUR/USD soars on hawkish Fed";
     description := Some "<p>Markets rallied &nbsp;today</p>";
     content := None;
     pubDate := Some "2024-03-12T10:00:00Z";
     link := Some "https://x.com/a";
     guid := None; thumbnail := None; enclosureLink := None;
     itemAuthor := None |}.

(** A plain item with its own guid and a given date. *)
Definition item (n : nat) (date : option string) : RawItem :=
  {| title := Some ("Headline " ++ decimal (Z.of_nat n))%string;
     description := None; content := None;
     pubDate := date;
     link := None;
     guid := Some ("item-" ++ decimal (Z.of_nat n))%string;
     thumbnail := Some "https://img.example/pic.png";
     enclosureLink := None; itemAuthor := None |}.

Definition manyItems (k : nat) (date : string) : list RawItem :=
  map (fun n => item n (Some date)) (seq 0 k).

(** One hour after the scenario item was published: one source delivers it
    and the storage takes it. *)
Definition firstVisit : host :=
  browser (march12 + 3600000) (onlyForexLive [scenarioItem]) noQuota.

(** Ten days after the scenario item was published: one source delivers 201
    items of the last hour and the storage is full. *)
Definition laterVisit : host :=
  browser (march12 + 10 * 24 * 60 * 60 * 1000)
    (onlyForexLive (manyItems 201 "2024-03-22T09:00:00Z")) storageFull.

(** The same as [firstVisit], with a full storage. *)
Definition fullVisit : host :=
  browser (march12 + 3600000) (onlyForexLive [scenarioItem]) storageFull.

Definition corruptStorage : Storage :=
  {| stored := Some Garbage; setItemCalls := [] |}.

End Scenario.

(** ** The view that calls [fetchMarketNews]: [NewsFeed] *)

Module NewsFeed.

(** [fetchNews]: the [news] state takes what [fetchMarketNews] resolved to;
    when the promise rejects the [catch] logs and the state stays. *)
Definition fetchNews (h : host) (news : Returned) (st : Storage)
  : Returned * Storage :=
  match fetchMarketNews h st with
  | (Normal articles, st') => (articles, st')
  | (Thrown, st') => (news, st')
  end.

(** [useState<NewsArticle[]>([])]. *)
Definition initialNews : Returned := RList [].

(** The [news] state after the refreshes of the mount effect and of its
    one-minute timer, each under its own host. *)
Fixpoint refreshes (hs : list host) (news : Returned) (st : Storage)
  : Returned * Storage :=
  match hs with
  | [] => (news, st)
  | h :: rest =>
      let '(news', st') := fetchNews h news st in
      refreshes rest news' st'
  end.

(** The tabs of the view. *)
Definition categories : list string :=
  [ "All"; "Sentiment"; "Squawk"; "Markets"; "Crypto" ].

(** [filteredNews]: the articles of the active category, all of them under
    the category [All]. *)
Definition filteredNews (news : list NewsArticle) (activeCategory : string)
  : list NewsArticle :=
  if negb (String.eqb activeCategory "All")
  then filter (fun n => String.eqb (category n) activeCategory) news
  else news.

(** [visibleNews = filteredNews.slice(0, displayCount)]. *)
Definition visibleNews (news : list NewsArticle) (activeCategory : string)
    (displayCount : nat) : list NewsArticle :=
  firstn displayCount (filteredNews news activeCategory).

(** [hasMore = visibleNews.length < filteredNews.length]. *)
Definition hasMore (news : list NewsArticle) (activeCategory : string)
    (displayCount : nat) : bool :=
  (List.length (visibleNews news activeCategory displayCount)
   <? List.length (filteredNews news activeCategory))%nat.

(** The button under the list: [setDisplayCount(prev => prev + 20)]. *)
Definition loadMore (displayCount : nat) : nat := (displayCount + 20)%nat.

(** [useState(20)]. *)
Definition initialDisplayCount : nat := 20%nat.

(** [tickerNews = news.filter(n => n.isBreaking).slice(0, 5)]. *)
Definition tickerNews (news : list NewsArticle) : list NewsArticle :=
  firstn 5 (filter isBreaking news).

(** [a % b] on integers: the truncating remainder, [None] for the [NaN] a
    zero divisor gives. *)
Definition jsRem (a b : Z) : option Z :=
  if b =? 0 then None else Some (Z.rem a b).

(** [nextTicker]: [(prev + 1) % tickerNews.length]. *)
Definition nextTicker (len : nat) (prev : Z) : option Z :=
  jsRem (prev + 1) (Z.of_nat len).

(** [prevTicker]: [(prev - 1 + tickerNews.length) % tickerNews.length]. *)
Definition prevTicker (len : nat) (prev : Z) : option Z :=
  jsRem (prev - 1 + Z.of_nat len) (Z.of_nat len).

(** [tickerNews[activeTickerIndex]]: [None] is [undefined]. *)
Definition tickerAt (news : list NewsArticle) (index : Z) : option NewsArticle :=
  if index <? 0 then None else nth_error (tickerNews news) (Z.to_nat index).

(** [breakingNews = filteredNews.find(n => n.isBreaking) || filteredNews[0]]. *)
Definition breakingNews (news : list NewsArticle) (activeCategory : string)
  : option NewsArticle :=
  match find isBreaking (filteredNews news activeCategory) with
  | Some b => Some b
  | None => hd_error (filteredNews news activeCategory)
  end.

(** [mainFeed = visibleNews.filter(n => n.id !== breakingNews?.id)]: without a
    featured article the id compared with is [undefined] and every article
    passes. *)
Definition mainFeed (news : list NewsArticle) (activeCategory : string)
    (displayCount : nat) : list NewsArticle :=
  filter
    (fun n =>
       match breakingNews news activeCategory with
       | Some b => negb (String.eqb (id n) (id b))
       | None => true
       end)
    (visibleNews news activeCategory displayCount).

End NewsFeed.

(** ** The older classifier of [geminiService.ts] *)

Definition bullishTerms : list string :=
  [ "soars"; "jumps"; "rallies"; "gains"; "bull"; "buy"; "support hold";
    "breakout"; "higher"; "hawkish"; "beats"; "positive"; "upgrade"; "surges";
    "records" ].

Definition bearishTerms : list string :=
  [ "plunges"; "dives"; "drops"; "falls"; "bear"; "sell"; "resistance";
    "breakdown"; "lower"; "dovish"; "misses"; "negative"; "downgrade";
    "retreats"; "crash" ].

Definition determineSentiment (text : string) : Sentiment :=
  let t := JsString.toLowerCase text in
  if existsb (fun term => JsString.includes t term) bullishTerms then Bullish
  else if existsb (fun term => JsString.includes t term) bearishTerms then Bearish
  else Neutral.

(** ** More vocabulary *)

(** The base-31 polynomial of a list of code units, first unit in the highest
    power. *)
Definition poly31 (codes : list Z) : Z :=
  fold_left (fun hash code => 31 * hash + code) codes 0.

(** Whether a code unit occurs in a string. *)
Fixpoint occurs (c : ascii) (s : string) : bool :=
  match s with
  | EmptyString => false
  | String d r => Ascii.eqb c d || occurs c r
  end.

(** [a.publishedAt > nowMs - ONE_WEEK_MS]: the test of the retention
    filter. *)
Definition recent (nowMs : Z) (a : NewsArticle) : bool :=
  num_gt (publishedAt a) (nowMs - ONE_WEEK_MS).

(** The archive in the storage, when there is one, has pairwise distinct
    ids. *)
Definition archiveDistinct (st : Storage) : Prop :=
  match stored st with
  | Some (Archived l) => NoDup (map id l)
  | _ => True
  end.

(** The article bears the category of one of the configured feeds. *)
Definition fromFeeds (a : NewsArticle) : Prop :=
  In (category a) (map feedCategory FEED_SOURCES).

(** Every article of the archive in the storage comes from a configured
    feed. *)
Definition archiveFromFeeds (st : Storage) : Prop :=
  match stored st with
  | Some (Archived l) => forall a, In a l -> fromFeeds a
  | _ => True
  end.

(** * Properties *)

(** ** The placeholder hash *)

Section PlaceholderHash.

Example hash_abc : seedHash "abc" = 96354.
Proof. reflexivity. Qed.

Example fallback_abc : getFallbackImage "abc" = nth_error FALLBACK_IMAGES 6.
Proof. reflexivity. Qed.

Lemma drop_past_end : forall s i,
  (String.length s <= i)%nat -> JsString.drop i s = EmptyString.
Proof.
  induction s as [|c r IH]; intros [|i] Hi; simpl in *; try reflexivity; try lia.
  apply IH; lia.
Qed.

Lemma drop_inside : forall s i,
  (i < String.length s)%nat ->
  exists c, String.get i s = Some c /\
            JsString.drop i s = String c (JsString.drop (S i) s).
Proof.
  induction s as [|c r IH]; intros i Hi; simpl in Hi; [lia|].
  destruct i as [|i].
  - exists c. split; [reflexivity|]. simpl. now destruct r.
  - destruct (IH i ltac:(lia)) as (c' & Hget & Hdrop).
    exists c'. split; [exact Hget|]. simpl. exact Hdrop.
Qed.

(** The loop over indices visits the code units left of the string in
    order. *)
Lemma hashLoop_fold : forall fuel seed i hash,
  (fuel + i = String.length seed)%nat ->
  hashLoop fuel seed i hash =
  fold_left hashStep (JsString.charCodes (JsString.drop i seed)) hash.
Proof.
  induction fuel as [|fuel IH]; intros seed i hash Hlen; simpl.
  - rewrite drop_past_end by lia. reflexivity.
  - destruct (Nat.ltb_spec i (String.length seed)) as [Hlt|Hge]; [|lia].
    destruct (drop_inside seed i Hlt) as (c & Hget & Hdrop).
    unfold JsString.charCodeAt. rewrite Hget, Hdrop. simpl.
    apply IH. lia.
Qed.

Lemma seedHash_rollingHash : forall seed,
  seedHash seed = rollingHash (JsString.charCodes seed).
Proof.
  intros seed. unfold seedHash, rollingHash.
  rewrite hashLoop_fold by lia.
  simpl. destruct seed; reflexivity.
Qed.

Lemma toInt32_range : forall z, - 2 ^ 31 <= toInt32 z < 2 ^ 31.
Proof.
  intros z. unfold toInt32.
  pose proof (Z.mod_pos_bound z (2 ^ 32) ltac:(lia)) as Hm.
  destruct (Z.leb_spec (2 ^ 31) (z mod 2 ^ 32)); lia.
Qed.

(** The shift of the program is multiplication by 32 modulo 2^32. *)
Lemma shl32_5_mul : forall x, shl32 x 5 = toInt32 (32 * x).
Proof.
  intros x. unfold shl32. rewrite Z.shiftl_mul_pow2 by lia.
  unfold toInt32 at 1 3.
  replace ((toInt32 x * 2 ^ 5) mod 2 ^ 32) with ((32 * x) mod 2 ^ 32); [reflexivity|].
  unfold toInt32.
  destruct (Z.leb_spec (2 ^ 31) (x mod 2 ^ 32)).
  - replace ((x mod 2 ^ 32 - 2 ^ 32) * 2 ^ 5)
      with (x mod 2 ^ 32 * 32 + (- 32) * 2 ^ 32) by lia.
    rewrite Z.mod_add by lia.
    rewrite Z.mul_mod_idemp_l by lia. f_equal; lia.
  - change (2 ^ 5) with 32. rewrite Z.mul_mod_idemp_l by lia. f_equal; lia.
Qed.

(** While the hash is small the shift does not wrap, and one turn of the loop
    is the step of the polynomial hash with base 31. *)
Lemma hashStep_small : forall hash code,
  - 2 ^ 26 <= hash < 2 ^ 26 -> hashStep hash code = 31 * hash + code.
Proof.
  intros hash code Hh. unfold hashStep. rewrite shl32_5_mul.
  unfold toInt32.
  destruct (Z.leb_spec 0 hash).
  - rewrite Z.mod_small by lia.
    destruct (Z.leb_spec (2 ^ 31) (32 * hash)); lia.
  - replace (32 * hash) with (32 * hash + 2 ^ 32 + (-1) * 2 ^ 32) by lia.
    rewrite Z.mod_add by lia. rewrite Z.mod_small by lia.
    destruct (Z.leb_spec (2 ^ 31) (32 * hash + 2 ^ 32)); lia.
Qed.

(** The hash grows by less than 2^32 in absolute value at each code unit, so
    it is far inside the integers a double holds exactly for any seed of fewer
    than two million code units. *)
Lemma rollingHash_bound : forall codes hash,
  Forall (fun c => 0 <= c < 2 ^ 16) codes ->
  Z.abs (fold_left hashStep codes hash)
  <= Z.abs hash + 2 ^ 32 * Z.of_nat (List.length codes).
Proof.
  induction codes as [|c codes IH]; intros hash Hc; cbn [fold_left List.length].
  - lia.
  - inversion Hc as [|? ? Hc1 Hc2]; subst.
    specialize (IH (hashStep hash c) Hc2).
    assert (Z.abs (hashStep hash c) <= Z.abs hash + 2 ^ 32).
    { unfold hashStep. pose proof (toInt32_range (Z.shiftl (toInt32 hash) 5)).
      unfold shl32. lia. }
    lia.
Qed.

Lemma fallbackIndex_range : forall hash,
  0 <= fallbackIndex hash < Z.of_nat (List.length FALLBACK_IMAGES).
Proof.
  intros hash. unfold fallbackIndex.
  rewrite Z.rem_mod_nonneg by (simpl; lia).
  apply Z.mod_pos_bound. simpl. lia.
Qed.

End PlaceholderHash.

(** C9.  For every seed, [getFallbackImage] returns the entry of the palette at
    the index the specification describes: the rolling hash accumulated per
    character as [hash = char_code + ((hash << 5) - hash)], in absolute value,
    modulo the palette size.  That index is always inside the palette, so an
    image is always returned; and the placeholder the normalizer picks for an
    item is the same under every host, hence across runs. *)
Theorem C9_placeholder_is_specified_hash :
  (forall seed : string,
     getFallbackImage seed
     = nth_error FALLBACK_IMAGES (paletteIndex (JsString.charCodes seed))
     /\ (paletteIndex (JsString.charCodes seed) < List.length FALLBACK_IMAGES)%nat
     /\ exists image, getFallbackImage seed = Some image /\ In image FALLBACK_IMAGES)
  /\ (forall (h1 h2 : host) (cfg : FeedSource) (item : RawItem),
        imageUrl (normalize h1 cfg item) = imageUrl (normalize h2 cfg item)).
Proof.
  split.
  - intros seed.
    assert (Hidx : Z.to_nat (fallbackIndex (seedHash seed))
                   = paletteIndex (JsString.charCodes seed)).
    { unfold paletteIndex, fallbackIndex. rewrite seedHash_rollingHash.
      rewrite Z.rem_mod_nonneg by (simpl; lia). reflexivity. }
    assert (Hlt : (paletteIndex (JsString.charCodes seed)
                   < List.length FALLBACK_IMAGES)%nat).
    { rewrite <- Hidx. pose proof (fallbackIndex_range (seedHash seed)). lia. }
    unfold getFallbackImage. rewrite Hidx.
    split; [reflexivity|]. split; [exact Hlt|].
    destruct (nth_error FALLBACK_IMAGES (paletteIndex (JsString.charCodes seed)))
      as [image|] eqn:Hnth.
    + exists image. split; [reflexivity|]. eapply nth_error_In; eassumption.
    + apply nth_error_None in Hnth. lia.
  - intros h1 h2 cfg item. reflexivity.
Qed.

(** ** The id-keyed map *)

Section ArticleMap.

Lemma lookup_mapSet : forall m k v k',
  lookup (mapSet m k v) k' = if String.eqb k k' then Some v else lookup m k'.
Proof.
  induction m as [|[k0 v0] m IH]; intros k v k'; simpl.
  - reflexivity.
  - destruct (String.eqb_spec k0 k) as [->|Hne]; simpl.
    + destruct (String.eqb_spec k k'); reflexivity.
    + destruct (String.eqb_spec k0 k') as [->|Hne'].
      * destruct (String.eqb_spec k k'); [congruence|reflexivity].
      * apply IH.
Qed.

Lemma keys_mapSet : forall m k v k',
  In k' (map fst (mapSet m k v)) <-> k' = k \/ In k' (map fst m).
Proof.
  induction m as [|[k0 v0] m IH]; intros k v k'; simpl.
  - intuition.
  - destruct (String.eqb_spec k0 k) as [->|Hne]; simpl.
    + intuition.
    + rewrite IH. intuition.
Qed.

Lemma NoDup_mapSet : forall m k v,
  NoDup (map fst m) -> NoDup (map fst (mapSet m k v)).
Proof.
  induction m as [|[k0 v0] m IH]; intros k v Hnd; simpl.
  - constructor; [intros []|constructor].
  - inversion Hnd as [|? ? Hnotin Hnd']; subst.
    destruct (String.eqb_spec k0 k) as [->|Hne]; simpl.
    + constructor; assumption.
    + constructor; [|apply IH; assumption].
      rewrite keys_mapSet. intros [Heq|Hin]; [congruence|contradiction].
Qed.

Lemma keyed_mapSet : forall m a,
  keyed m -> keyed (mapSet m (id a) a).
Proof.
  unfold keyed.
  induction m as [|[k0 v0] m IH]; intros a Hk; simpl.
  - constructor; [reflexivity|constructor].
  - inversion Hk as [|? ? Hhd Htl]; subst. simpl in Hhd.
    destruct (String.eqb_spec k0 (id a)) as [Heq|Hne].
    + constructor; [simpl; exact Heq|assumption].
    + constructor; [exact Hhd|apply IH; assumption].
Qed.

Lemma lookup_setAll : forall l m k,
  lookup (setAll m l) k =
  match lookupLast l k with
  | Some a => Some a
  | None => lookup m k
  end.
Proof.
  unfold setAll.
  induction l as [|a l IH]; intros m k; simpl.
  - reflexivity.
  - rewrite IH, lookup_mapSet.
    destruct (lookupLast l k); [reflexivity|].
    destruct (String.eqb (id a) k); reflexivity.
Qed.

Lemma NoDup_setAll : forall l m,
  NoDup (map fst m) -> NoDup (map fst (setAll m l)).
Proof.
  unfold setAll. induction l as [|a l IH]; intros m Hnd; simpl.
  - exact Hnd.
  - apply IH, NoDup_mapSet, Hnd.
Qed.

Lemma keyed_setAll : forall l m, keyed m -> keyed (setAll m l).
Proof.
  unfold setAll. induction l as [|a l IH]; intros m Hk; simpl.
  - exact Hk.
  - apply IH, keyed_mapSet, Hk.
Qed.

Lemma lookupLast_app : forall l1 l2 k,
  lookupLast (l1 ++ l2) k =
  match lookupLast l2 k with
  | Some b => Some b
  | None => lookupLast l1 k
  end.
Proof.
  induction l1 as [|a l1 IH]; intros l2 k; simpl.
  - destruct (lookupLast l2 k); reflexivity.
  - rewrite IH. destruct (lookupLast l2 k); reflexivity.
Qed.

Lemma lookupLast_Some : forall l k a,
  lookupLast l k = Some a -> In a l /\ id a = k.
Proof.
  induction l as [|b l IH]; intros k a H; simpl in H.
  - discriminate.
  - destruct (lookupLast l k) as [c|] eqn:Hl.
    + inversion H; subst. destruct (IH _ _ Hl). split; [right|]; assumption.
    + destruct (String.eqb_spec (id b) k); [|discriminate].
      inversion H; subst. split; [left|]; reflexivity.
Qed.

Lemma lookupLast_None : forall l k,
  lookupLast l k = None <-> ~ In k (map id l).
Proof.
  induction l as [|b l IH]; intros k; simpl.
  - intuition.
  - destruct (lookupLast l k) as [c|] eqn:Hl.
    + split; [discriminate|]. intros Hn. exfalso. apply Hn. right.
      apply lookupLast_Some in Hl. destruct Hl as [Hin <-]. now apply in_map.
    + apply IH in Hl.
      destruct (String.eqb_spec (id b) k) as [Heq|Hne].
      * split; [discriminate|]. intros Hn. exfalso. apply Hn. now left.
      * split; [|reflexivity]. intros _ [Heq|Hin]; [congruence|contradiction].
Qed.

(** An article whose id no other article of the list bears is the one the list
    leaves under that id. *)
Lemma lookupLast_unique : forall l a,
  In a l -> (forall b, In b l -> id b = id a -> b = a) ->
  lookupLast l (id a) = Some a.
Proof.
  intros l a Hin Huniq.
  destruct (lookupLast l (id a)) as [b|] eqn:Hl.
  - apply lookupLast_Some in Hl. destruct Hl as [Hb Hid].
    f_equal. apply Huniq; assumption.
  - apply lookupLast_None in Hl. exfalso. apply Hl. now apply in_map.
Qed.

(** What the map of step 3 holds for an id: the last fresh article that bears
    it, else the last archived one. *)
Lemma lookup_articleMap : forall archived fresh k,
  lookup (articleMap archived fresh) k = lookupLast (archived ++ fresh) k.
Proof.
  intros. unfold articleMap.
  rewrite !lookup_setAll, lookupLast_app. simpl.
  destruct (lookupLast fresh k); [reflexivity|].
  destruct (lookupLast archived k); reflexivity.
Qed.

Lemma NoDup_articleMap : forall archived fresh,
  NoDup (map fst (articleMap archived fresh)).
Proof.
  intros. unfold articleMap. apply NoDup_setAll, NoDup_setAll. constructor.
Qed.

Lemma keyed_articleMap : forall archived fresh,
  keyed (articleMap archived fresh).
Proof.
  intros. unfold articleMap. apply keyed_setAll, keyed_setAll. constructor.
Qed.

Lemma lookup_In : forall m k v, lookup m k = Some v -> In (k, v) m.
Proof.
  induction m as [|[k0 v0] m IH]; intros k v H; simpl in H.
  - discriminate.
  - destruct (String.eqb_spec k0 k) as [->|Hne].
    + inversion H; subst. now left.
    + right. now apply IH.
Qed.

Lemma In_lookup : forall m k v,
  NoDup (map fst m) -> In (k, v) m -> lookup m k = Some v.
Proof.
  induction m as [|[k0 v0] m IH]; intros k v Hnd Hin; simpl.
  - destruct Hin.
  - inversion Hnd as [|? ? Hnotin Hnd']; subst.
    destruct Hin as [Heq|Hin].
    + inversion Heq; subst. now rewrite String.eqb_refl.
    + destruct (String.eqb_spec k0 k) as [->|Hne].
      * exfalso. apply Hnotin. change k with (fst (k, v)). now apply in_map.
      * now apply IH.
Qed.

(** The values of a map keyed by id are the articles it holds under their
    own id. *)
Lemma In_mapValues : forall m a,
  NoDup (map fst m) -> keyed m ->
  (In a (mapValues m) <-> lookup m (id a) = Some a).
Proof.
  intros m a Hnd Hk. unfold mapValues. split.
  - intros Hin. apply in_map_iff in Hin. destruct Hin as ([k v] & Hv & Hin).
    simpl in Hv. subst v.
    unfold keyed in Hk. rewrite Forall_forall in Hk.
    pose proof (Hk _ Hin) as Hkey. simpl in Hkey. subst k.
    now apply In_lookup.
  - intros Hl. apply lookup_In in Hl.
    change a with (snd (id a, a)). now apply in_map.
Qed.

Lemma ids_mapValues : forall m, keyed m -> map id (mapValues m) = map fst m.
Proof.
  unfold keyed, mapValues. induction m as [|[k v] m IH]; intros Hk; simpl.
  - reflexivity.
  - inversion Hk as [|? ? Hhd Htl]; subst. simpl in Hhd.
    rewrite IH by assumption. now rewrite Hhd.
Qed.

End ArticleMap.

(** ** Filtering and sorting *)

Section MergeSort.

Lemma insertSorted_perm : forall a l, Permutation (insertSorted a l) (a :: l).
Proof.
  induction l as [|b l IH]; simpl.
  - apply Permutation_refl.
  - destruct (keepsOrder a b).
    + apply Permutation_refl.
    + eapply perm_trans; [apply perm_skip, IH|apply perm_swap].
Qed.

Lemma sortArticles_perm : forall l, Permutation (sortArticles l) l.
Proof.
  induction l as [|a l IH]; simpl.
  - constructor.
  - eapply perm_trans; [apply insertSorted_perm|apply perm_skip, IH].
Qed.

Lemma In_sortArticles : forall l a, In a (sortArticles l) <-> In a l.
Proof.
  intros l a. split; apply Permutation_in;
    [|apply Permutation_sym]; apply sortArticles_perm.
Qed.

Lemma newerOrEqual_trans : forall a b c,
  newerOrEqual a b -> newerOrEqual b c -> newerOrEqual a c.
Proof.
  intros a b c (ta & tb & Ha & Hb & Hab) (tb' & tc & Hb' & Hc & Hbc).
  rewrite Hb in Hb'. inversion Hb'; subst.
  exists ta, tc. repeat split; try assumption. lia.
Qed.

Lemma keepsOrder_dated : forall a b ta tb,
  publishedAt a = Fin ta -> publishedAt b = Fin tb ->
  keepsOrder a b = (tb <=? ta).
Proof.
  intros a b ta tb Ha Hb. unfold keepsOrder, compareFn. rewrite Ha, Hb.
  destruct (Z.leb_spec (tb - ta) 0), (Z.leb_spec tb ta); (reflexivity || lia).
Qed.

Lemma insertSorted_Sorted : forall a l,
  (exists t, publishedAt a = Fin t) -> allDated l ->
  Sorted newerOrEqual l -> Sorted newerOrEqual (insertSorted a l).
Proof.
  intros a l [ta Ha]. induction l as [|b l IH]; intros Hd Hs; simpl.
  - constructor; constructor.
  - destruct (Hd b (or_introl eq_refl)) as [tb Hb].
    rewrite (keepsOrder_dated a b ta tb Ha Hb).
    destruct (Z.leb_spec tb ta) as [Hle|Hgt].
    + constructor; [exact Hs|]. constructor. exists ta, tb. repeat split; auto. lia.
    + inversion Hs as [|? ? Hs' Hhd]; subst.
      assert (Hd' : allDated l) by (intros x Hx; apply Hd; now right).
      constructor; [apply IH; assumption|].
      destruct l as [|c l]; simpl.
      * constructor. exists tb, ta. repeat split; auto. lia.
      * destruct (keepsOrder a c).
        -- constructor. exists tb, ta. repeat split; auto. lia.
        -- constructor. inversion Hhd; subst. assumption.
Qed.

Lemma sortArticles_Sorted : forall l,
  allDated l -> Sorted newerOrEqual (sortArticles l).
Proof.
  induction l as [|a l IH]; intros Hd; simpl.
  - constructor.
  - apply insertSorted_Sorted.
    + apply Hd. now left.
    + intros x Hx. apply Hd. right. now apply In_sortArticles.
    + apply IH. intros x Hx. apply Hd. now right.
Qed.

Lemma Sorted_descending : forall l, Sorted newerOrEqual l -> descending l.
Proof.
  intros l Hs pre. revert l Hs.
  induction pre as [|x pre IH]; intros l Hs a b post Hl; subst l.
  - simpl in Hs. inversion Hs as [|? ? _ Hhd]; subst.
    inversion Hhd; subst. assumption.
  - simpl in Hs. inversion Hs as [|? ? Hs' _]; subst.
    eapply IH; [exact Hs'|reflexivity].
Qed.

Lemma descending_Sorted : forall l, descending l -> Sorted newerOrEqual l.
Proof.
  induction l as [|a l IH]; intros Hd.
  - constructor.
  - constructor.
    + apply IH. intros pre x y post Hl. subst l.
      apply (Hd (a :: pre) x y post). reflexivity.
    + destruct l as [|b l]; constructor.
      apply (Hd [] a b l). reflexivity.
Qed.

(** In a descending list nothing behind a cut is newer than anything before
    it. *)
Lemma descending_cut : forall l1 l2 a b,
  descending (l1 ++ l2) -> In a l1 -> In b l2 -> newerOrEqual a b.
Proof.
  intros l1 l2 a b Hd Ha Hb.
  apply descending_Sorted in Hd.
  apply Sorted_StronglySorted in Hd;
    [|intros x y z; apply newerOrEqual_trans].
  revert Hd Ha. induction l1 as [|x l1 IH]; intros Hd Ha; [destruct Ha|].
  simpl in Hd. inversion Hd as [|? ? Hss Hall]; subst.
  destruct Ha as [->|Ha].
  - rewrite Forall_forall in Hall. apply Hall, in_or_app. now right.
  - apply IH; assumption.
Qed.

Lemma descending_firstn : forall n l, descending l -> descending (firstn n l).
Proof.
  intros n l Hd pre a b post Hl.
  apply (Hd pre a b (post ++ skipn n l)).
  rewrite <- (firstn_skipn n l) at 1. rewrite Hl.
  rewrite <- app_assoc. reflexivity.
Qed.

Lemma NoDup_ids_filter : forall (f : NewsArticle -> bool) l,
  NoDup (map id l) -> NoDup (map id (filter f l)).
Proof.
  induction l as [|a l IH]; intros Hnd; simpl.
  - constructor.
  - inversion Hnd as [|? ? Hnotin Hnd']; subst.
    destruct (f a); simpl; [constructor|]; auto.
    intros Hin. apply Hnotin.
    apply in_map_iff in Hin. destruct Hin as (x & Hx & Hin).
    apply filter_In in Hin. rewrite <- Hx. apply in_map. tauto.
Qed.

(** The articles of [mergedArticles]: those the merge leaves under their id
    and that are newer than the cutoff. *)
Lemma In_mergedArticles : forall nowMs archived fresh a,
  In a (mergedArticles nowMs archived fresh) <->
  lookupLast (archived ++ fresh) (id a) = Some a /\
  num_gt (publishedAt a) (nowMs - ONE_WEEK_MS) = true.
Proof.
  intros. unfold mergedArticles.
  rewrite In_sortArticles, filter_In.
  rewrite In_mapValues by (apply NoDup_articleMap || apply keyed_articleMap).
  rewrite lookup_articleMap. reflexivity.
Qed.

Lemma NoDup_mergedArticles : forall nowMs archived fresh,
  NoDup (map id (mergedArticles nowMs archived fresh)).
Proof.
  intros. unfold mergedArticles.
  eapply Permutation_NoDup.
  - apply Permutation_sym, Permutation_map, sortArticles_perm.
  - apply NoDup_ids_filter.
    rewrite ids_mapValues by apply keyed_articleMap.
    apply NoDup_articleMap.
Qed.

Lemma num_gt_dated : forall x y,
  num_gt x y = true -> exists t, x = Fin t /\ t > y.
Proof.
  intros [|t] y H; simpl in H; [discriminate|].
  exists t. split; [reflexivity|]. apply Z.ltb_lt in H. lia.
Qed.

Lemma allDated_mergedArticles : forall nowMs archived fresh,
  allDated (mergedArticles nowMs archived fresh).
Proof.
  intros nowMs archived fresh a Ha.
  apply In_mergedArticles in Ha. destruct Ha as [_ Ha].
  apply num_gt_dated in Ha. destruct Ha as (t & Ht & _). eauto.
Qed.

Lemma descending_mergedArticles : forall nowMs archived fresh,
  descending (mergedArticles nowMs archived fresh).
Proof.
  intros. apply Sorted_descending. unfold mergedArticles.
  apply sortArticles_Sorted.
  intros a Ha. apply filter_In in Ha. destruct Ha as [_ Ha].
  apply num_gt_dated in Ha. destruct Ha as (t & Ht & _). eauto.
Qed.

End MergeSort.


(** ** How a call runs *)

Section Execution.

Lemma mergeStep_run : forall h sources st,
  mergeStep h sources st = (mergeResult h sources st, st).
Proof.
  intros h sources st. unfold mergeStep, mergeResult, loadedArchive.
  unfold bind, lift, loadArchive, tryCatch, getItem, ret, throw, present.
  destruct (freshArticles h sources) as [fresh|]; [|reflexivity].
  destruct st as [[[| | |l]|] calls]; reflexivity.
Qed.

Lemma fallback_run : forall st, fallback st = (fallbackResult st, st).
Proof.
  intros [[[| | |l]|] calls]; reflexivity.
Qed.

(** The four ways the save can go. *)
Lemma saveArchive_run : forall h merged st,
  saveArchive h merged st =
  if quotaExceeded h st merged then
    if (200 <? List.length merged)%nat then
      if secondWriteThrows h st merged
      then (Thrown, after st (stored st) [merged; firstn 200 merged])
      else (Normal tt, after st (Some (Archived (firstn 200 merged)))
                         [merged; firstn 200 merged])
    else (Normal tt, after st (stored st) [merged])
  else (Normal tt, after st (Some (Archived merged)) [merged]).
Proof.
  intros h merged st.
  unfold saveArchive, tryCatch, setItem, secondWriteThrows, after, ret.
  destruct (quotaExceeded h st merged); simpl; [|reflexivity].
  destruct (200 <? List.length merged)%nat; simpl; [|reflexivity].
  rewrite <- app_assoc. simpl.
  destruct (secondWriteThrows h st merged); reflexivity.
Qed.

(** Every way a call can run. *)
Lemma fetchMarketNewsFrom_run : forall sources h st,
  fetchMarketNewsFrom sources h st =
  match mergeResult h sources st with
  | Thrown => (fallbackResult st, st)
  | Normal merged =>
      if quotaExceeded h st merged then
        if (200 <? List.length merged)%nat then
          if secondWriteThrows h st merged
          then (fallbackResult st, after st (stored st) [merged; firstn 200 merged])
          else (Normal (RList merged),
                after st (Some (Archived (firstn 200 merged)))
                  [merged; firstn 200 merged])
        else (Normal (RList merged), after st (stored st) [merged])
      else (Normal (RList merged), after st (Some (Archived merged)) [merged])
  end.
Proof.
  intros sources h st.
  unfold fetchMarketNewsFrom, aggregate, tryCatch, bind.
  rewrite mergeStep_run.
  destruct (mergeResult h sources st) as [merged|].
  - rewrite saveArchive_run.
    destruct (quotaExceeded h st merged); [|reflexivity].
    destruct (200 <? List.length merged)%nat; [|reflexivity].
    destruct (secondWriteThrows h st merged); [|reflexivity].
    rewrite fallback_run. reflexivity.
  - rewrite fallback_run. reflexivity.
Qed.

(** The body of the outer [try] ends normally exactly when the merge was
    computed and the save did not throw twice. *)
Lemma aggregate_Normal : forall h sources st l st',
  aggregate h sources st = (Normal l, st') ->
  mergeResult h sources st = Normal l /\
  fetchMarketNewsFrom sources h st = (Normal (RList l), st').
Proof.
  intros h sources st l st' H.
  unfold fetchMarketNewsFrom, tryCatch, bind.
  unfold aggregate, bind in H. rewrite mergeStep_run in H.
  destruct (mergeResult h sources st) as [merged|] eqn:Hm; [|discriminate].
  destruct (saveArchive h merged st) as [[[]|] st1] eqn:Hs; [|discriminate].
  unfold ret in H. inversion H; subst.
  split; [reflexivity|].
  unfold aggregate, bind. rewrite mergeStep_run, Hm, Hs. reflexivity.
Qed.

Lemma mergeResult_Normal : forall h sources st l,
  mergeResult h sources st = Normal l ->
  exists fresh archived,
    freshArticles h sources = Normal fresh /\
    loadedArchive st = Normal archived /\
    l = mergedArticles (now h) archived fresh.
Proof.
  intros h sources st l H. unfold mergeResult in H.
  destruct (freshArticles h sources) as [fresh|]; [|discriminate].
  destruct (loadedArchive st) as [archived|]; [|discriminate].
  inversion H; subst. eauto.
Qed.

Lemma mergeStep_fst : forall h sources st,
  fst (mergeStep h sources st) = mergeResult h sources st.
Proof.
  intros. rewrite mergeStep_run. reflexivity.
Qed.

Lemma loadArchive_fst : forall st l,
  fst (loadArchive st) = Normal (PList l) <-> loadedArchive st = Normal l.
Proof.
  intros [[[| | |l0]|] calls] l; unfold loadedArchive; simpl;
    split; intros H; inversion H; reflexivity || discriminate.
Qed.

End Execution.

(** Splitting the equation a run gives into its value and its storage. *)
Ltac ran H :=
  apply pair_equal_spec in H;
  let Hv := fresh "Hval" in
  let Hs := fresh "Hsto" in
  destruct H as [Hv Hs]; try subst.

(** Closing a goal about the list a run returned. *)
Ltac returned H :=
  match goal with
  | E : Normal (RList _) = Normal (RList _) |- _ =>
      injection E as E; try subst; exact H
  end.

(** ** Order of the output *)

Section SortInvariant.

Lemma allDated_firstn : forall n l, allDated l -> allDated (firstn n l).
Proof.
  intros n l Hd a Ha. apply Hd. rewrite <- (firstn_skipn n l).
  apply in_or_app. now left.
Qed.

Lemma descending_nil : descending [].
Proof.
  intros pre a b post H. destruct pre; discriminate.
Qed.

(** Whatever a call writes is in descending order, and it leaves an archive
    that was so as it is. *)
Lemma archiveSorted_preserved : forall sources h st r st',
  archiveSorted st ->
  fetchMarketNewsFrom sources h st = (r, st') ->
  archiveSorted st'.
Proof.
  intros sources h st r st' Hinv Hrun.
  rewrite fetchMarketNewsFrom_run in Hrun.
  destruct (mergeResult h sources st) as [merged|] eqn:Hm.
  - apply mergeResult_Normal in Hm.
    destruct Hm as (fresh & archived & _ & _ & ->).
    set (merged := mergedArticles (now h) archived fresh) in *.
    assert (Hsorted : descending merged /\ allDated merged).
    { split; [apply descending_mergedArticles|apply allDated_mergedArticles]. }
    destruct (quotaExceeded h st merged).
    + destruct (200 <? List.length merged)%nat.
      * destruct (secondWriteThrows h st merged); ran Hrun;
          unfold archiveSorted, after; cbn [stored].
        -- exact Hinv.
        -- split; [apply descending_firstn|apply allDated_firstn]; tauto.
      * ran Hrun. exact Hinv.
    + ran Hrun. exact Hsorted.
  - ran Hrun. exact Hinv.
Qed.

Lemma reachable_archiveSorted : forall st, reachable st -> archiveSorted st.
Proof.
  induction 1 as [|sources h st r st' _ IH Hrun].
  - exact I.
  - eapply archiveSorted_preserved; eassumption.
Qed.

(** The list a call returns is in descending order as soon as the archive it
    found was. *)
Lemma returned_descending : forall sources h st l st',
  archiveSorted st ->
  fetchMarketNewsFrom sources h st = (Normal (RList l), st') ->
  descending l.
Proof.
  intros sources h st l st' Hinv Hrun.
  assert (Hfb : fallbackResult st = Normal (RList l) -> descending l).
  { unfold fallbackResult, archiveSorted in *.
    destruct (stored st) as [[| | |l0]|]; intros Hfb; inversion Hfb; subst;
      try apply descending_nil.
    apply Hinv. }
  rewrite fetchMarketNewsFrom_run in Hrun.
  destruct (mergeResult h sources st) as [merged|] eqn:Hm.
  - apply mergeResult_Normal in Hm.
    destruct Hm as (fresh & archived & _ & _ & ->).
    pose proof (descending_mergedArticles (now h) archived fresh) as Hd.
    destruct (quotaExceeded h st _).
    + destruct (200 <? _)%nat.
      * destruct (secondWriteThrows h st _); ran Hrun.
        -- apply Hfb. assumption.
        -- returned Hd.
      * ran Hrun. returned Hd.
    + ran Hrun. returned Hd.
  - ran Hrun. apply Hfb. assumption.
Qed.

(** In any sequence of refresh cycles, every list returned is in descending
    order. *)
Lemma runCycles_descending : forall hs st l,
  archiveSorted st ->
  In (Normal (RList l)) (fst (runCycles hs st)) ->
  descending l.
Proof.
  induction hs as [|h hs IH]; intros st l Hinv Hin; simpl in Hin.
  - destruct Hin.
  - destruct (fetchMarketNews h st) as [r st1] eqn:Hrun.
    destruct (runCycles hs st1) as [rs st2] eqn:Hrest.
    simpl in Hin. destruct Hin as [Hr|Hin].
    + subst r. eapply returned_descending; eassumption.
    + apply (IH st1).
      * eapply archiveSorted_preserved; eassumption.
      * rewrite Hrest. exact Hin.
Qed.

End SortInvariant.

(** C6.  Whatever the sources, their order and their answers, the clock and the
    quota, the list [fetchMarketNews] returns is in descending order of
    [publishedAt]: for every adjacent pair (a, b) of it,
    a.publishedAt >= b.publishedAt.  This holds on every storage the pipeline
    itself has produced from an empty one, the fallback to the archive
    included. *)
Theorem C6_output_sorted_descending :
  forall (sources : list FeedSource) (h : host) (st st' : Storage)
         (l : list NewsArticle),
    reachable st ->
    fetchMarketNewsFrom sources h st = (Normal (RList l), st') ->
    descending l.
Proof.
  intros sources h st st' l Hreach Hrun.
  apply reachable_archiveSorted in Hreach.
  eapply returned_descending; eassumption.
Qed.

(** Two sources answer, the older article first: the newer one comes out
    first. *)
Lemma C6_witness :
  let older := Scenario.item 1 (Some "2024-03-20T09:00:00Z") in
  let newer := Scenario.item 2 (Some "2024-03-22T09:00:00Z") in
  let feed := fun u =>
    if String.eqb u (feedUrl Scenario.forexLive)
    then Body (Some "ok") (ItemsArray [older])
    else if String.eqb u (feedUrl Scenario.fxStreet)
    then Body (Some "ok") (ItemsArray [newer])
    else NetworkError in
  let h := Scenario.browser (Scenario.march22 + 60000) feed Scenario.noQuota in
  let l := [ normalize h Scenario.fxStreet newer;
             normalize h Scenario.forexLive older ] in
  reachable emptyStorage
  /\ fst (fetchMarketNews h emptyStorage) = Normal (RList l)
  /\ descending l.
Proof.
  intros older newer feed h l.
  split; [exact reach_empty|]. split; [vm_compute; reflexivity|].
  apply (C6_output_sorted_descending FEED_SOURCES h emptyStorage
           (snd (fetchMarketNews h emptyStorage)) l reach_empty).
  vm_compute. reflexivity.
Defined.

(** ** Retention *)

(** C5, as stated, fails on the fallback path.  The first visit stores the
    scenario article.  Ten days later the feed delivers 201 articles and the
    storage is full: both writes throw, the outer handler returns the archive
    as it is, and the caller receives an article published ten days before. *)
Lemma C5_counterexample_stale_archive_returned :
  let old := normalize Scenario.firstVisit Scenario.forexLive Scenario.scenarioItem in
  fst (runCycles [Scenario.firstVisit; Scenario.laterVisit] emptyStorage)
  = [Normal (RList [old]); Normal (RList [old])]
  /\ publishedAt old = Fin Scenario.march12
  /\ Scenario.march12 = now Scenario.laterVisit - 10 * 24 * 60 * 60 * 1000
  /\ ~ (Scenario.march12 >= now Scenario.laterVisit - 7 * 24 * 60 * 60 * 1000).
Proof.
  cbv zeta.
  split; [vm_compute; reflexivity|].
  split; [reflexivity|]. split; [reflexivity|].
  vm_compute. intros H. apply H. reflexivity.
Qed.

(** C5, amended.  When the body of the outer [try] ends normally, the list it
    returns is the one [fetchMarketNews] returns, and every article of it was
    published strictly after now - 7 * 24 * 60 * 60 * 1000 ms, hence not
    before.  In particular an archived article that is seven days old or
    more (ten days, say), that is the one the archive holds under its id, and
    whose id no fresh article bears, leaves no article under its id in that
    list. *)
Theorem C5_retention_on_normal_completion :
  forall (h : host) (sources : list FeedSource) (st st' : Storage)
         (l : list NewsArticle),
    aggregate h sources st = (Normal l, st') ->
    fetchMarketNewsFrom sources h st = (Normal (RList l), st')
    /\ (forall a, In a l ->
          exists t, publishedAt a = Fin t
                    /\ t > now h - 7 * 24 * 60 * 60 * 1000
                    /\ t >= now h - 7 * 24 * 60 * 60 * 1000)
    /\ (forall archived fresh old t,
          fst (loadArchive st) = Normal (PList archived) ->
          freshArticles h sources = Normal fresh ->
          lookupLast archived (id old) = Some old ->
          ~ In (id old) (map id fresh) ->
          publishedAt old = Fin t ->
          t <= now h - 7 * 24 * 60 * 60 * 1000 ->
          forall a, In a l -> id a <> id old).
Proof.
  intros h sources st st' l Hrun.
  apply aggregate_Normal in Hrun. destruct Hrun as [Hm Hrun].
  split; [exact Hrun|].
  apply mergeResult_Normal in Hm.
  destruct Hm as (fresh & archived & Hfresh & Harch & ->).
  split.
  - intros a Ha. apply In_mergedArticles in Ha. destruct Ha as [_ Hgt].
    apply num_gt_dated in Hgt. destruct Hgt as (t & Ht & Hgt).
    exists t. change ONE_WEEK_MS with (7 * 24 * 60 * 60 * 1000) in Hgt.
    repeat split; [exact Ht|lia|lia].
  - intros archived' fresh' old t Harch' Hfresh' Hlast Hnot Hold Hage a Ha Hid.
    apply loadArchive_fst in Harch'. rewrite Harch in Harch'. rewrite Hfresh in Hfresh'.
    inversion Harch'; inversion Hfresh'; subst archived' fresh'.
    apply In_mergedArticles in Ha. destruct Ha as [Hbound Hgt].
    rewrite lookupLast_app in Hbound.
    apply lookupLast_None in Hnot.
    rewrite Hid, Hnot, Hlast in Hbound. inversion Hbound; subst a.
    rewrite Hold in Hgt. simpl in Hgt. apply Z.ltb_lt in Hgt.
    change ONE_WEEK_MS with (7 * 24 * 60 * 60 * 1000) in Hgt. lia.
Qed.

(** The first visit ends normally and returns the one-hour-old article. *)
Lemma C5_witness :
  let h := Scenario.firstVisit in
  let l := [normalize h Scenario.forexLive Scenario.scenarioItem] in
  let st' := snd (aggregate h FEED_SOURCES emptyStorage) in
  aggregate h FEED_SOURCES emptyStorage = (Normal l, st')
  /\ fetchMarketNews h emptyStorage = (Normal (RList l), st')
  /\ forall a, In a l ->
       exists t, publishedAt a = Fin t
                 /\ t > now h - 7 * 24 * 60 * 60 * 1000
                 /\ t >= now h - 7 * 24 * 60 * 60 * 1000.
Proof.
  intros h l st'.
  assert (Hrun : aggregate h FEED_SOURCES emptyStorage = (Normal l, st'))
    by (vm_compute; reflexivity).
  split; [exact Hrun|].
  destruct (C5_retention_on_normal_completion h FEED_SOURCES emptyStorage st' l Hrun)
    as (Hret & Hrecent & _).
  split; [exact Hret|exact Hrecent].
Defined.

(** ** Failures *)

Section Failures.

(** The promise rejects exactly when the outer handler runs on a stored string
    that does not parse. *)
Lemma fetchMarketNews_rejects_iff : forall sources h st,
  fst (fetchMarketNewsFrom sources h st) = Thrown <->
  stored st = Some Garbage /\
  (fst (mergeStep h sources st) = Thrown \/
   exists merged, fst (mergeStep h sources st) = Normal merged /\
                  quotaExceeded h st merged = true /\
                  (200 < List.length merged)%nat /\
                  secondWriteThrows h st merged = true).
Proof.
  intros sources h st. rewrite fetchMarketNewsFrom_run, mergeStep_fst.
  assert (Hfb : fallbackResult st = Thrown <-> stored st = Some Garbage).
  { unfold fallbackResult. destruct (stored st) as [[| | |l]|];
      split; intros H; (reflexivity || discriminate). }
  destruct (mergeResult h sources st) as [merged|].
  - destruct (quotaExceeded h st merged) eqn:Hq1.
    + destruct (Nat.ltb_spec 200 (List.length merged)) as [Hlen|Hlen].
      * destruct (secondWriteThrows h st merged) eqn:Hq2; cbn [fst].
        -- rewrite Hfb. split; [intros Hg; split; [exact Hg|right; eauto]|tauto].
        -- split; [discriminate|].
           intros (_ & [Hm|(m & Hm & _ & _ & Hq)]); [discriminate|].
           inversion Hm; subst m. congruence.
      * cbn [fst]. split; [discriminate|].
        intros (_ & [Hm|(m & Hm & _ & Hl & _)]); [discriminate|].
        inversion Hm; subst m. lia.
    + cbn [fst]. split; [discriminate|].
      intros (_ & [Hm|(m & Hm & Hq & _)]); [discriminate|].
      inversion Hm; subst m. congruence.
  - cbn [fst]. rewrite Hfb. tauto.
Qed.

(** A status-ok answer whose [items] is not a list makes the whole body
    throw, whatever the other sources delivered. *)
Lemma shape_deviation_escapes : forall h sources src,
  In src sources ->
  fetchFeed h (feedUrl src) = Body (Some "ok") ItemsNotArray ->
  freshArticles h sources = Thrown.
Proof.
  intros h sources src Hin Hbad. unfold freshArticles, feedResults.
  generalize (@nil NewsArticle).
  induction sources as [|s sources IH]; intros acc; [destruct Hin|].
  simpl. destruct Hin as [->|Hin].
  - rewrite Hbad. reflexivity.
  - destruct (pushResult h acc _); [apply IH; exact Hin|reflexivity].
Qed.

End Failures.

(** A request answers with an ok status and an [items] that is not a list,
    while another source delivers an article: the body throws and the call
    falls back to the (absent) archive. *)
Lemma shape_deviation_witness :
  let feed := fun u =>
    if String.eqb u "https://www.forexlive.com/feed"
    then Body (Some "ok") (ItemsArray [Scenario.scenarioItem])
    else if String.eqb u "https://www.fxstreet.com/rss/news"
    then Body (Some "ok") ItemsNotArray
    else NetworkError in
  let h := Scenario.browser (Scenario.march12 + 3600000) feed Scenario.noQuota in
  freshArticles h FEED_SOURCES = Thrown
  /\ fst (fetchMarketNews h emptyStorage) = Normal (RList []).
Proof.
  intros feed h. split.
  - apply (shape_deviation_escapes h FEED_SOURCES Scenario.fxStreet).
    + right. left. reflexivity.
    + reflexivity.
  - vm_compute. reflexivity.
Defined.

(** When both writes of step 5 throw, the call returns what the outer handler
    makes of the stored string, not the merged list. *)
Lemma second_failure_returns_archive : forall sources h st merged,
  fst (mergeStep h sources st) = Normal merged ->
  quotaExceeded h st merged = true ->
  (200 < List.length merged)%nat ->
  secondWriteThrows h st merged = true ->
  fetchMarketNewsFrom sources h st
  = (fst (fallback st), after st (stored st) [merged; firstn 200 merged]).
Proof.
  intros sources h st merged Hm Hq Hlen Hq2.
  rewrite mergeStep_fst in Hm. rewrite fallback_run. cbn [fst].
  rewrite fetchMarketNewsFrom_run, Hm, Hq, Hq2.
  destruct (Nat.ltb_spec 200 (List.length merged)); [reflexivity|lia].
Qed.

Lemma second_failure_witness :
  let h := Scenario.laterVisit in
  let merged := map (normalize h Scenario.forexLive)
                  (Scenario.manyItems 201 "2024-03-22T09:00:00Z") in
  fetchMarketNews h emptyStorage
  = (Normal (RList []), after emptyStorage None [merged; firstn 200 merged]).
Proof.
  intros h merged.
  apply (second_failure_returns_archive FEED_SOURCES h emptyStorage merged).
  - vm_compute. reflexivity.
  - reflexivity.
  - unfold merged, Scenario.manyItems. rewrite length_map, length_map, length_seq. lia.
  - reflexivity.
Defined.

(** The bullish list is consulted first: a text that holds a bullish keyword
    is Bullish whatever bearish keywords it holds as well. *)
Lemma bullish_takes_precedence : forall text w,
  In w bullish ->
  JsString.includes (JsString.toLowerCase text) w = true ->
  analyzeSentiment text = Bullish.
Proof.
  intros text w Hw Hinc. unfold analyzeSentiment.
  assert (Hex : existsb (fun w => JsString.includes (JsString.toLowerCase text) w)
                  bullish = true).
  { apply existsb_exists. exists w. split; assumption. }
  rewrite Hex. reflexivity.
Qed.

Lemma bullish_precedence_witness :
  analyzeSentiment "Gold SOARS as dollar falls" = Bullish.
Proof.
  apply (bullish_takes_precedence "Gold SOARS as dollar falls" "soars").
  - left. reflexivity.
  - reflexivity.
Defined.

(** C1, at a failing input.  The stored string does not parse, the feed
    delivers 201 recent articles and the storage is full.  The guarded load of
    step 2 absorbs the unreadable archive; both writes of step 5 throw, the
    second one out of its handler; the outer handler then parses the stored
    string without a guard, and the promise rejects instead of resolving to
    the empty list. *)
Theorem C1_fallback_rejects_on_unreadable_archive :
  fst (fetchMarketNews Scenario.laterVisit Scenario.corruptStorage) = Thrown
  /\ fst (mergeStep Scenario.laterVisit FEED_SOURCES Scenario.corruptStorage)
     = Normal (map (normalize Scenario.laterVisit Scenario.forexLive)
                 (Scenario.manyItems 201 "2024-03-22T09:00:00Z"))
  /\ fst (loadArchive Scenario.corruptStorage) = Normal (PList []).
Proof.
  split; [|split].
  - vm_compute. reflexivity.
  - vm_compute. reflexivity.
  - reflexivity.
Qed.

(** ** The save and its second attempt *)

(** C2, as stated, fails on both counts.  With one merged article and a full
    storage, the first write throws and [setItem] is never called again: the
    retry is guarded by the length of the list.  With 201 merged articles and
    a full storage, the second write throws as well, out of the handler of the
    first, and the caller receives what the outer handler finds in the
    storage -- here the empty list -- instead of the merged list. *)
Lemma C2_counterexample_save_failures :
  let h := Scenario.fullVisit in
  let merged := [normalize h Scenario.forexLive Scenario.scenarioItem] in
  let h' := Scenario.laterVisit in
  let merged' := map (normalize h' Scenario.forexLive)
                   (Scenario.manyItems 201 "2024-03-22T09:00:00Z") in
  (fst (mergeStep h FEED_SOURCES emptyStorage) = Normal merged
   /\ quotaExceeded h emptyStorage merged = true
   /\ setItemCalls (snd (fetchMarketNews h emptyStorage)) = [merged])
  /\ (fst (mergeStep h' FEED_SOURCES emptyStorage) = Normal merged'
      /\ quotaExceeded h' emptyStorage merged' = true
      /\ secondWriteThrows h' emptyStorage merged' = true
      /\ fst (fetchMarketNews h' emptyStorage) = Normal (RList [])
      /\ merged' <> []).
Proof.
  cbv zeta. split.
  - split; [vm_compute; reflexivity|].
    split; [reflexivity|]. vm_compute. reflexivity.
  - split; [vm_compute; reflexivity|].
    split; [reflexivity|]. split; [reflexivity|].
    split; [vm_compute; reflexivity|].
    unfold Scenario.manyItems. simpl. discriminate.
Qed.

(** C2, amended.  When the first write of the merged list throws:
    - if the list has at most 200 articles there is no second attempt, the
      stored value stays and the full merged list is returned;
    - if it has more than 200, [setItem] is called exactly once more, with the
      first 200 articles of the merged list, none of which is older than any
      article left out; and when that second write goes through, the
      truncated list is what is stored and the full, untruncated merged list
      is what is returned. *)
Theorem C2_save_retry_and_returned_list :
  forall (sources : list FeedSource) (h : host) (st : Storage)
         (merged : list NewsArticle),
    fst (mergeStep h sources st) = Normal merged ->
    quotaExceeded h st merged = true ->
    ((List.length merged <= 200)%nat ->
       fetchMarketNewsFrom sources h st
       = (Normal (RList merged), after st (stored st) [merged]))
    /\ ((200 < List.length merged)%nat ->
          setItemCalls (snd (fetchMarketNewsFrom sources h st))
          = setItemCalls st ++ [merged; firstn 200 merged]
          /\ List.length (firstn 200 merged) = 200%nat
          /\ (forall a b, In a (firstn 200 merged) -> In b (skipn 200 merged) ->
                newerOrEqual a b)
          /\ (secondWriteThrows h st merged = false ->
                fetchMarketNewsFrom sources h st
                = (Normal (RList merged),
                   after st (Some (Archived (firstn 200 merged)))
                     [merged; firstn 200 merged]))).
Proof.
  intros sources h st merged Hm Hq.
  rewrite mergeStep_fst in Hm.
  rewrite fetchMarketNewsFrom_run, Hm, Hq.
  split.
  - intros Hlen.
    destruct (Nat.ltb_spec 200 (List.length merged)); [lia|reflexivity].
  - intros Hlen.
    destruct (Nat.ltb_spec 200 (List.length merged)) as [_|]; [|lia].
    split; [|split; [|split]].
    + destruct (secondWriteThrows h st merged); reflexivity.
    + apply firstn_length_le. lia.
    + intros a b Ha Hb.
      apply (descending_cut (firstn 200 merged) (skipn 200 merged)); trivial.
      rewrite firstn_skipn.
      apply mergeResult_Normal in Hm.
      destruct Hm as (fresh & archived & _ & _ & ->).
      apply descending_mergedArticles.
    + intros Hq2. rewrite Hq2. reflexivity.
Qed.

(** The storage refuses the 201 merged articles and then the first 200 of
    them. *)
Lemma C2_witness :
  let h := Scenario.laterVisit in
  let merged := map (normalize h Scenario.forexLive)
                  (Scenario.manyItems 201 "2024-03-22T09:00:00Z") in
  fst (mergeStep h FEED_SOURCES emptyStorage) = Normal merged
  /\ quotaExceeded h emptyStorage merged = true
  /\ ((200 < List.length merged)%nat ->
        setItemCalls (snd (fetchMarketNews h emptyStorage))
        = [merged; firstn 200 merged]).
Proof.
  intros h merged.
  assert (Hm : fst (mergeStep h FEED_SOURCES emptyStorage) = Normal merged)
    by (vm_compute; reflexivity).
  assert (Hq : quotaExceeded h emptyStorage merged = true) by reflexivity.
  split; [exact Hm|]. split; [exact Hq|].
  intros Hlen.
  destruct (C2_save_retry_and_returned_list FEED_SOURCES h emptyStorage merged Hm Hq)
    as [_ Hlong].
  destruct (Hlong Hlen) as (Hcalls & _).
  exact Hcalls.
Defined.

(** ** Isolation of the sources *)

Section Isolation.

Variable h : host.

Lemma failed_contributes_nothing : forall src,
  failedSource (fetchFeed h (feedUrl src)) = true -> contribution h src = [].
Proof.
  intros src Hf. unfold contribution.
  destruct (fetchFeed h (feedUrl src)) as [| | |st [| |l]]; try reflexivity.
  simpl in Hf. destruct (isOk st); [discriminate|reflexivity].
Qed.

(** One turn of [results.forEach] on a source that failed or succeeded adds
    the contribution of that source, and does not throw. *)
Lemma pushResult_contribution : forall acc src,
  failedSource (fetchFeed h (feedUrl src)) = true
  \/ succeededSource (fetchFeed h (feedUrl src)) = true ->
  pushResult h acc (settle src (fetchFeed h (feedUrl src)))
  = Normal (acc ++ contribution h src).
Proof.
  intros acc src Hkind. unfold contribution, pushResult.
  destruct (fetchFeed h (feedUrl src)) as [| | |st [| |l]]; simpl in *;
    try (rewrite app_nil_r; reflexivity).
  - destruct (isOk st); simpl; rewrite ?app_nil_r; reflexivity.
  - destruct (isOk st); simpl in *; [|rewrite app_nil_r; reflexivity].
    destruct Hkind; discriminate.
  - destruct (isOk st); simpl; rewrite ?app_nil_r; reflexivity.
Qed.

Lemma pushResults_contributions : forall sources acc,
  (forall src, In src sources ->
     failedSource (fetchFeed h (feedUrl src)) = true
     \/ succeededSource (fetchFeed h (feedUrl src)) = true) ->
  pushResults h acc (feedResults h sources)
  = Normal (acc ++ flat_map (contribution h) sources).
Proof.
  induction sources as [|src sources IH]; intros acc Hkind; simpl.
  - rewrite app_nil_r. reflexivity.
  - rewrite pushResult_contribution by (apply Hkind; now left).
    rewrite IH by (intros s Hs; apply Hkind; now right).
    rewrite app_assoc. reflexivity.
Qed.

(** Leaving the failed sources out changes nothing to what is collected. *)
Lemma contributions_of_succeeded : forall sources,
  (forall src, In src sources ->
     failedSource (fetchFeed h (feedUrl src)) = true
     \/ succeededSource (fetchFeed h (feedUrl src)) = true) ->
  flat_map (contribution h) (filter (succeeded h) sources)
  = flat_map (contribution h) sources.
Proof.
  induction sources as [|src sources IH]; intros Hkind; simpl.
  - reflexivity.
  - assert (IH' := IH (fun s Hs => Hkind s (or_intror Hs))).
    destruct (succeeded h src) eqn:Hs; simpl.
    + now rewrite IH'.
    + rewrite IH'. destruct (Hkind src (or_introl eq_refl)) as [Hf|Hok].
      * now rewrite failed_contributes_nothing.
      * unfold succeeded in Hs. congruence.
Qed.

End Isolation.

(** A call depends on its sources through the fresh articles only. *)
Lemma fetchMarketNewsFrom_fresh : forall h sources sources' st,
  freshArticles h sources = freshArticles h sources' ->
  fetchMarketNewsFrom sources h st = fetchMarketNewsFrom sources' h st.
Proof.
  intros h sources sources' st Heq.
  rewrite !fetchMarketNewsFrom_run. unfold mergeResult. rewrite Heq. reflexivity.
Qed.

(** C3, as stated, fails in three ways.  By design: the list returned is the
    merge, pruned to the retention window, so a source that succeeds with an
    article ten days old sees it left out and the call returns an empty list.
    Beyond that: an answer with an ok status whose [items] is not a list
    makes the whole loop throw, and the recent article a healthy source
    delivered is lost with it; and with plain network failures only, 201
    articles from the healthy source and a storage that refuses both writes,
    the call returns the empty archive, or rejects when the archive is
    unreadable. *)
Lemma C3_counterexample_union_not_returned :
  let tenDays := 10 * 24 * 60 * 60 * 1000 in
  let late := Scenario.browser (Scenario.march12 + tenDays)
                (Scenario.onlyForexLive [Scenario.scenarioItem]) Scenario.noQuota in
  let old := normalize late Scenario.forexLive Scenario.scenarioItem in
  let feed := fun u =>
    if String.eqb u "https://www.forexlive.com/feed"
    then Body (Some "ok") (ItemsArray [Scenario.scenarioItem])
    else if String.eqb u "https://www.fxstreet.com/rss/news"
    then Body (Some "ok") ItemsNotArray
    else NetworkError in
  let odd := Scenario.browser (Scenario.march12 + 3600000) feed Scenario.noQuota in
  let fresh := normalize odd Scenario.forexLive Scenario.scenarioItem in
  let full := Scenario.laterVisit in
  (flat_map (contribution late) (filter (succeeded late) FEED_SOURCES) = [old]
   /\ forallb (fun src => failedSource (fetchFeed late (feedUrl src))
                          || succeededSource (fetchFeed late (feedUrl src)))
        FEED_SOURCES = true
   /\ fst (fetchMarketNews late emptyStorage) = Normal (RList [])
   /\ Normal (RList []) <> Normal (RList [old]))
  /\ (flat_map (contribution odd) (filter (succeeded odd) FEED_SOURCES) = [fresh]
      /\ recent (now odd) fresh = true
      /\ fst (fetchMarketNews odd emptyStorage) = Normal (RList [])
      /\ Normal (RList []) <> Normal (RList [fresh]))
  /\ (List.length (flat_map (contribution full) (filter (succeeded full) FEED_SOURCES))
      = 201%nat
      /\ forallb (fun src => failedSource (fetchFeed full (feedUrl src))
                             || succeededSource (fetchFeed full (feedUrl src)))
           FEED_SOURCES = true
      /\ fst (fetchMarketNews full emptyStorage) = Normal (RList [])
      /\ fst (fetchMarketNews full Scenario.corruptStorage) = Thrown).
Proof.
  intros tenDays late old feed odd fresh full.
  split; [|split].
  - split; [vm_compute; reflexivity|]. split; [vm_compute; reflexivity|].
    split; [vm_compute; reflexivity|discriminate].
  - split; [vm_compute; reflexivity|]. split; [vm_compute; reflexivity|].
    split; [vm_compute; reflexivity|discriminate].
  - split; [vm_compute; reflexivity|]. split; [vm_compute; reflexivity|].
    split; vm_compute; reflexivity.
Qed.

(** C3, amended.  Take any configuration in which every source either fails
    (the request fails, the body is not JSON or is the JSON null, or the
    status is not ok) or succeeds (ok status with a list of items or with
    none).  Then a failing source contributes zero items; collecting the
    fresh articles does not throw and gives the union, in source order, of
    the normalized items of the successful sources; and the call behaves
    exactly as if the failing sources were not configured.  Whenever the body
    ends normally the call returns the merge of the archive with that union.
    More precisely, unless the stored value is JSON that is no list, the
    merge step does not throw: its result is the merge of the archive with
    the union, which holds every article of the union that is inside the
    retention window and shares its id with no other article; and the call
    returns that merge when the first write goes through, or the merge has
    at most 200 articles, or the second write goes through. *)
Theorem C3_per_source_fault_isolation :
  forall (h : host) (sources : list FeedSource),
    (forall src, In src sources ->
       failedSource (fetchFeed h (feedUrl src)) = true
       \/ succeededSource (fetchFeed h (feedUrl src)) = true) ->
    let union := flat_map (contribution h) (filter (succeeded h) sources) in
    (forall src, In src sources ->
       failedSource (fetchFeed h (feedUrl src)) = true -> contribution h src = [])
    /\ freshArticles h sources = Normal union
    /\ (forall st, fetchMarketNewsFrom sources h st
                   = fetchMarketNewsFrom (filter (succeeded h) sources) h st)
    /\ (forall st l st',
          aggregate h sources st = (Normal l, st') ->
          fetchMarketNewsFrom sources h st = (Normal (RList l), st')
          /\ exists archived,
               fst (loadArchive st) = Normal (PList archived)
               /\ l = mergedArticles (now h) archived union
               /\ forall a, In a union ->
                    (forall b, In b (archived ++ union) -> id b = id a -> b = a) ->
                    num_gt (publishedAt a) (now h - ONE_WEEK_MS) = true ->
                    In a l)
    /\ (forall st,
          stored st <> Some NotAList ->
          exists archived,
            fst (loadArchive st) = Normal (PList archived)
            /\ let merged := mergedArticles (now h) archived union in
               fst (mergeStep h sources st) = Normal merged
               /\ (forall a, In a union ->
                     (forall b, In b (archived ++ union) -> id b = id a -> b = a) ->
                     num_gt (publishedAt a) (now h - ONE_WEEK_MS) = true ->
                     In a merged)
               /\ (quotaExceeded h st merged = false
                   \/ (List.length merged <= 200)%nat
                   \/ secondWriteThrows h st merged = false ->
                   fst (fetchMarketNewsFrom sources h st) = Normal (RList merged))).
Proof.
  intros h sources Hkind union.
  assert (Hfresh : freshArticles h sources = Normal union).
  { unfold freshArticles, union.
    rewrite pushResults_contributions by exact Hkind.
    rewrite contributions_of_succeeded by exact Hkind. reflexivity. }
  assert (Hkind' : forall src, In src (filter (succeeded h) sources) ->
            failedSource (fetchFeed h (feedUrl src)) = true
            \/ succeededSource (fetchFeed h (feedUrl src)) = true).
  { intros src Hin. apply filter_In in Hin. now right. }
  assert (Hkept : forall archived a, In a union ->
            (forall b, In b (archived ++ union) -> id b = id a -> b = a) ->
            num_gt (publishedAt a) (now h - ONE_WEEK_MS) = true ->
            In a (mergedArticles (now h) archived union)).
  { intros archived a Ha Huniq Hrecent.
    apply In_mergedArticles. split; [|exact Hrecent].
    apply lookupLast_unique; [apply in_or_app; now right|exact Huniq]. }
  split; [intros src _; apply failed_contributes_nothing|].
  split; [exact Hfresh|]. split; [|split].
  - intros st. apply fetchMarketNewsFrom_fresh. rewrite Hfresh.
    unfold freshArticles. rewrite pushResults_contributions by exact Hkind'.
    reflexivity.
  - intros st l st' Hrun. apply aggregate_Normal in Hrun.
    destruct Hrun as [Hm Hrun]. split; [exact Hrun|].
    apply mergeResult_Normal in Hm.
    destruct Hm as (fresh & archived & Hf & Harch & ->).
    rewrite Hfresh in Hf. inversion Hf; subst fresh.
    exists archived. split; [apply loadArchive_fst, Harch|]. split; [reflexivity|].
    apply Hkept.
  - intros st Hlist.
    assert (Hload : exists archived, loadedArchive st = Normal archived).
    { unfold loadedArchive. destruct (stored st) as [[| | |l]|];
        try (eexists; reflexivity). congruence. }
    destruct Hload as [archived Hload]. exists archived.
    split; [apply loadArchive_fst, Hload|].
    assert (Hm : mergeResult h sources st
                 = Normal (mergedArticles (now h) archived union)).
    { unfold mergeResult. rewrite Hfresh, Hload. reflexivity. }
    cbv zeta. split; [rewrite mergeStep_fst; exact Hm|].
    split; [apply Hkept|].
    intros Hsave. rewrite fetchMarketNewsFrom_run, Hm.
    destruct (quotaExceeded h st _) eqn:Hq; [|reflexivity].
    destruct (Nat.ltb_spec 200
                (List.length (mergedArticles (now h) archived union)))
      as [Hlong|Hshort]; [|reflexivity].
    destruct (secondWriteThrows h st _) eqn:Hq2; [|reflexivity].
    destruct Hsave as [Hs|[Hs|Hs]]; [discriminate|lia|discriminate].
Qed.

(** Four sources: the first and the last answer with one recent item each,
    the second request fails, the third body is not JSON. *)
Lemma C3_witness :
  let first := Scenario.item 1 (Some "2024-03-22T09:00:00Z") in
  let last := Scenario.item 4 (Some "2024-03-20T09:00:00Z") in
  let feed := fun u =>
    if String.eqb u "https://www.forexlive.com/feed"
    then Body (Some "ok") (ItemsArray [first])
    else if String.eqb u "https://www.fxstreet.com/rss/news" then NetworkError
    else if String.eqb u "https://cointelegraph.com/rss"
    then Body (Some "ok") (ItemsArray [last])
    else MalformedBody in
  let h := Scenario.browser (Scenario.march22 + 60000) feed Scenario.noQuota in
  (forall src, In src FEED_SOURCES ->
     failedSource (fetchFeed h (feedUrl src)) = true
     \/ succeededSource (fetchFeed h (feedUrl src)) = true)
  /\ freshArticles h FEED_SOURCES
     = Normal [ normalize h (nth 0 FEED_SOURCES Scenario.forexLive) first;
                normalize h (nth 3 FEED_SOURCES Scenario.forexLive) last ].
Proof.
  intros first last feed h.
  assert (Hkind : forall src, In src FEED_SOURCES ->
            failedSource (fetchFeed h (feedUrl src)) = true
            \/ succeededSource (fetchFeed h (feedUrl src)) = true).
  { intros src Hin. simpl in Hin.
    destruct Hin as [<-|[<-|[<-|[<-|[]]]]];
      vm_compute; (now left) || (now right). }
  split; [exact Hkind|].
  destruct (C3_per_source_fault_isolation h FEED_SOURCES Hkind) as (_ & Hfresh & _).
  rewrite Hfresh. vm_compute. reflexivity.
Defined.

(** ** The normalization scenario *)

Lemma startsWith_append : forall s t, JsString.startsWith s (s ++ t) = true.
Proof.
  induction s as [|c s IH]; intros t; simpl.
  - reflexivity.
  - rewrite Ascii.eqb_refl. apply IH.
Qed.

(** C7, as stated, fails on the summary: the entity becomes a space next to
    the space already there, and nothing collapses the two. *)
Lemma C7_counterexample_summary :
  summary (normalize Scenario.firstVisit Scenario.forexLive Scenario.scenarioItem)
  = "Markets rallied  today..."
  /\ summary (normalize Scenario.firstVisit Scenario.forexLive Scenario.scenarioItem)
     <> "Markets rallied today".
Proof.
  split; [reflexivity|]. intros H. vm_compute in H. discriminate H.
Qed.

(** C7, amended.  For the single raw item of the scenario, from a source
    whose status is ok, the loop pushes exactly one article, under every host
    and source configuration; its sentiment is Bullish, its isBreaking is
    true, its id is the link https://x.com/a since no guid is given, and its
    summary starts with the description cleaned -- the tags stripped and the
    entity replaced by one space, which leaves two spaces in a row.  For every
    item with a non-empty description the summary starts with the first 250
    characters of the cleaned description, and is exactly those followed by
    three dots when the cleaned description is longer than that. *)
Theorem C7_normalization_scenario :
  forall (h : host) (cfg : FeedSource),
    let a := normalize h cfg Scenario.scenarioItem in
    pushResult h []
      {| status := Some "ok";
         items := ItemsArray [Scenario.scenarioItem];
         config := cfg |}
    = Normal [a]
    /\ sentiment a = Bullish
    /\ isBreaking a = true
    /\ id a = "https://x.com/a"
    /\ JsString.replaceNbsp (JsString.stripTags "<p>Markets rallied &nbsp;today</p>")
       = "Markets rallied  today"
    /\ JsString.startsWith "Markets rallied  today" (summary a) = true
    /\ (forall item : RawItem,
          truthy (description item) = true ->
          let cleaned :=
            JsString.replaceNbsp (JsString.stripTags (toStr (description item))) in
          JsString.startsWith (JsString.slice0 250 cleaned)
            (summary (normalize h cfg item)) = true
          /\ ((250 < String.length cleaned)%nat ->
                summary (normalize h cfg item)
                = (JsString.slice0 250 cleaned ++ "...")%string)).
Proof.
  intros h cfg a. subst a.
  split; [reflexivity|].
  split; [reflexivity|].
  split; [reflexivity|].
  split; [reflexivity|].
  split; [reflexivity|].
  split; [reflexivity|].
  intros item Hd cleaned.
  assert (Hsum : summary (normalize h cfg item)
                 = (JsString.slice0 250 cleaned ++ "...")%string).
  { simpl. unfold summaryClean. rewrite Hd. reflexivity. }
  rewrite Hsum. split; [apply startsWith_append|reflexivity].
Qed.

(** ** Items whose date does not parse *)

Section BadDates.

Lemma pushResults_contains : forall h rs acc fresh,
  pushResults h acc rs = Normal fresh ->
  (forall a, In a acc -> In a fresh)
  /\ (forall r l x, In r rs -> isOk (status r) = true -> items r = ItemsArray l ->
        In x l -> In (normalize h (config r) x) fresh).
Proof.
  intros h. induction rs as [|r rs IH]; intros acc fresh Hrun; simpl in Hrun.
  - inversion Hrun; subst. split; [tauto|]. intros r l x [].
  - destruct (pushResult h acc r) as [acc'|] eqn:Hpush; [|discriminate].
    destruct (IH _ _ Hrun) as [Hacc Hrest].
    unfold pushResult in Hpush.
    split.
    + intros a Ha. apply Hacc.
      destruct (isOk (status r)).
      * destruct (items r); inversion Hpush; subst.
        apply in_or_app. now left.
      * inversion Hpush; subst. exact Ha.
    + intros r' l x [<-|Hin] Hok Hitems Hx.
      * rewrite Hok, Hitems in Hpush. inversion Hpush; subst.
        apply Hacc, in_or_app. right. now apply in_map.
      * eapply Hrest; eassumption.
Qed.

(** Every item of a source whose status is ok has its article among the fresh
    ones. *)
Lemma freshArticles_contains : forall h sources fresh src l x,
  freshArticles h sources = Normal fresh ->
  In src sources ->
  fetchFeed h (feedUrl src) = Body (Some "ok") (ItemsArray l) ->
  In x l ->
  In (normalize h src x) fresh.
Proof.
  intros h sources fresh src l x Hrun Hsrc Hfeed Hx.
  apply pushResults_contains in Hrun. destruct Hrun as [_ Hall].
  assert (Hcfg : config (settle src (fetchFeed h (feedUrl src))) = src)
    by (rewrite Hfeed; reflexivity).
  rewrite <- Hcfg at 1.
  apply (Hall (settle src (fetchFeed h (feedUrl src))) l x).
  - unfold feedResults. apply in_map_iff. exists src. split; [reflexivity|exact Hsrc].
  - rewrite Hfeed. reflexivity.
  - rewrite Hfeed. reflexivity.
  - exact Hx.
Qed.

(** Every article a call returns carries a number, as soon as those of the
    archive it found did. *)
Lemma returned_allDated : forall sources h st l st',
  archiveSorted st ->
  fetchMarketNewsFrom sources h st = (Normal (RList l), st') ->
  allDated l.
Proof.
  intros sources h st l st' Hinv Hrun.
  assert (Hfb : fallbackResult st = Normal (RList l) -> allDated l).
  { unfold fallbackResult, archiveSorted in *.
    destruct (stored st) as [[| | |l0]|]; intros Hfb; inversion Hfb; subst;
      try (intros a []).
    apply Hinv. }
  rewrite fetchMarketNewsFrom_run in Hrun.
  destruct (mergeResult h sources st) as [merged|] eqn:Hm.
  - apply mergeResult_Normal in Hm.
    destruct Hm as (fresh & archived & _ & _ & ->).
    pose proof (allDated_mergedArticles (now h) archived fresh) as Hd.
    destruct (quotaExceeded h st _).
    + destruct (200 <? _)%nat.
      * destruct (secondWriteThrows h st _); ran Hrun.
        -- apply Hfb. assumption.
        -- returned Hd.
      * ran Hrun. returned Hd.
    + ran Hrun. returned Hd.
  - ran Hrun. apply Hfb. assumption.
Qed.

End BadDates.

(** C8.  Let a source whose status is ok deliver an item whose pubDate is
    missing or does not parse, among siblings.  Processing the items of that
    source does not throw: every one of them, the bad one included, is
    normalized and pushed.  The article of the bad item is in no list the
    call returns (on a storage the pipeline produced).  And when the body ends
    normally, every sibling has its article among the fresh ones, and in the
    returned list as soon as it is recent and no other article shares its
    id. *)
Theorem C8_bad_date_item_is_isolated :
  forall (h : host) (sources : list FeedSource) (src : FeedSource)
         (pre post : list RawItem) (bad : RawItem),
    In src sources ->
    fetchFeed h (feedUrl src) = Body (Some "ok") (ItemsArray (pre ++ bad :: post)) ->
    getTime h (pubDate bad) = NaN ->
    (forall acc,
       pushResult h acc (settle src (fetchFeed h (feedUrl src)))
       = Normal (acc ++ map (normalize h src) pre
                     ++ normalize h src bad :: map (normalize h src) post))
    /\ (forall st l st',
          reachable st ->
          fetchMarketNewsFrom sources h st = (Normal (RList l), st') ->
          ~ In (normalize h src bad) l)
    /\ (forall st l st',
          aggregate h sources st = (Normal l, st') ->
          exists archived fresh,
            fst (loadArchive st) = Normal (PList archived)
            /\ freshArticles h sources = Normal fresh
            /\ forall sibling, In sibling (pre ++ post) ->
                 let a := normalize h src sibling in
                 In a fresh
                 /\ (num_gt (publishedAt a) (now h - ONE_WEEK_MS) = true ->
                     (forall b, In b (archived ++ fresh) -> id b = id a -> b = a) ->
                     In a l)).
Proof.
  intros h sources src pre post bad Hsrc Hfeed Hnan.
  split; [|split].
  - intros acc. rewrite Hfeed. unfold pushResult. simpl.
    rewrite map_app. reflexivity.
  - intros st l st' Hreach Hrun Hin.
    apply reachable_archiveSorted in Hreach.
    destruct (returned_allDated _ _ _ _ _ Hreach Hrun _ Hin) as [t Ht].
    simpl in Ht. rewrite Hnan in Ht. discriminate.
  - intros st l st' Hrun. apply aggregate_Normal in Hrun.
    destruct Hrun as [Hm _]. apply mergeResult_Normal in Hm.
    destruct Hm as (fresh & archived & Hfresh & Harch & ->).
    exists archived, fresh. split; [apply loadArchive_fst, Harch|].
    split; [exact Hfresh|].
    intros sibling Hsib a.
    assert (Hin : In a fresh).
    { eapply freshArticles_contains; try eassumption.
      apply in_app_or in Hsib. apply in_or_app.
      destruct Hsib; [now left|right; now right]. }
    split; [exact Hin|].
    intros Hrecent Huniq. apply In_mergedArticles. split; [|exact Hrecent].
    apply lookupLast_unique; [apply in_or_app; now right|exact Huniq].
Qed.

(** One source delivers a dated item, an item whose date is not a date, and
    another dated item. *)
Lemma C8_witness :
  let one := Scenario.item 1 (Some "2024-03-22T09:00:00Z") in
  let bad := Scenario.item 2 (Some "32 Marchember") in
  let three := Scenario.item 3 (Some "2024-03-20T09:00:00Z") in
  let h := Scenario.browser (Scenario.march22 + 60000)
             (Scenario.onlyForexLive [one; bad; three]) Scenario.noQuota in
  let src := Scenario.forexLive in
  In src FEED_SOURCES
  /\ fetchFeed h (feedUrl src) = Body (Some "ok") (ItemsArray ([one] ++ bad :: [three]))
  /\ getTime h (pubDate bad) = NaN
  /\ fst (fetchMarketNews h emptyStorage)
     = Normal (RList [normalize h src one; normalize h src three])
  /\ ~ In (normalize h src bad) [normalize h src one; normalize h src three].
Proof.
  intros one bad three h src.
  assert (Hsrc : In src FEED_SOURCES) by (left; reflexivity).
  assert (Hfeed : fetchFeed h (feedUrl src)
                  = Body (Some "ok") (ItemsArray ([one] ++ bad :: [three])))
    by reflexivity.
  assert (Hnan : getTime h (pubDate bad) = NaN) by reflexivity.
  assert (Hrun : fetchMarketNews h emptyStorage
                 = (Normal (RList [normalize h src one; normalize h src three]),
                    snd (fetchMarketNews h emptyStorage)))
    by (vm_compute; reflexivity).
  split; [exact Hsrc|]. split; [exact Hfeed|]. split; [exact Hnan|].
  split; [rewrite Hrun; reflexivity|].
  destruct (C8_bad_date_item_is_isolated h FEED_SOURCES src [one] [three] bad
              Hsrc Hfeed Hnan) as (_ & Hout & _).
  exact (Hout emptyStorage _ _ reach_empty Hrun).
Defined.



(** * Further properties of the normalizer *)

Section Cleanup.

Lemma occurs_append : forall c a b,
  occurs c (a ++ b)%string = occurs c a || occurs c b.
Proof.
  induction a as [|d a IH]; intros b; cbn [occurs String.append].
  - reflexivity.
  - rewrite IH. apply orb_assoc.
Qed.

Lemma occurs_slice0 : forall c n s,
  occurs c s = false -> occurs c (JsString.slice0 n s) = false.
Proof.
  induction n as [|n IH]; intros [|d s] H;
    cbn [occurs JsString.slice0] in *; try reflexivity.
  apply orb_false_iff in H. destruct H as [Hd Hs].
  rewrite Hd, IH by exact Hs. reflexivity.
Qed.

Lemma occurs_stripTagsFrom : forall s inTag,
  occurs "<" (JsString.stripTagsFrom inTag s) = false.
Proof.
  induction s as [|c s IH]; intros inTag; cbn [JsString.stripTagsFrom].
  - reflexivity.
  - destruct inTag.
    + destruct (Ascii.eqb c ">"); apply IH.
    + destruct (Ascii.eqb c "<") eqn:Hc; [apply IH|].
      cbn [occurs]. rewrite Ascii.eqb_sym, Hc. apply IH.
Qed.

(** A text without an opening bracket goes through [stripTags] unchanged. *)
Lemma stripTagsFrom_plain : forall s,
  occurs "<" s = false -> JsString.stripTagsFrom false s = s.
Proof.
  induction s as [|c s IH]; intros H; cbn [occurs JsString.stripTagsFrom] in *.
  - reflexivity.
  - apply orb_false_iff in H. destruct H as [Hc Hs].
    rewrite Ascii.eqb_sym, Hc, IH by exact Hs. reflexivity.
Qed.

Lemma occurs_replaceNbspFrom : forall c s skip,
  Ascii.eqb c " " = false ->
  occurs c s = false ->
  occurs c (JsString.replaceNbspFrom skip s) = false.
Proof.
  intros c. induction s as [|d s IH]; intros skip Hsp H;
    cbn [occurs JsString.replaceNbspFrom] in *.
  - reflexivity.
  - apply orb_false_iff in H. destruct H as [Hd Hs].
    destruct skip as [|k]; [|apply IH; assumption].
    destruct (JsString.startsWith "&nbsp;" (String d s)); cbn [occurs].
    + rewrite Hsp. apply IH; assumption.
    + rewrite Hd. apply IH; assumption.
Qed.

Lemma length_slice0 : forall n s, (String.length (JsString.slice0 n s) <= n)%nat.
Proof.
  induction n as [|n IH]; intros [|c s]; simpl; try lia.
  specialize (IH s). lia.
Qed.

Lemma length_append : forall a b,
  String.length (a ++ b)%string = (String.length a + String.length b)%nat.
Proof.
  induction a as [|c a IH]; intros b; simpl; [reflexivity|].
  now rewrite IH.
Qed.

Lemma startsWith_cons : forall a w c s,
  JsString.startsWith (String a w) (String c s)
  = Ascii.eqb a c && JsString.startsWith w s.
Proof. reflexivity. Qed.

Lemma includes_cons : forall c s p,
  JsString.includes (String c s) p
  = JsString.startsWith p (String c s) || JsString.includes s p.
Proof. reflexivity. Qed.

(** What [replaceNbsp] gives starts with a word that has neither a space
    nor an ampersand only if its argument does. *)
Lemma startsWith_replaceNbsp : forall w s,
  occurs " " w = false -> occurs "&" w = false ->
  JsString.startsWith w (JsString.replaceNbspFrom 0 s) = true ->
  JsString.startsWith w s = true.
Proof.
  induction w as [|a w IH]; intros s Hsp Hamp H; [reflexivity|].
  cbn [occurs] in Hsp, Hamp.
  apply orb_false_iff in Hsp. destruct Hsp as [Hsp1 Hsp2].
  apply orb_false_iff in Hamp. destruct Hamp as [Hamp1 Hamp2].
  destruct s as [|c s]; [discriminate H|].
  cbn [JsString.replaceNbspFrom] in H.
  destruct (JsString.startsWith "&nbsp;" (String c s)) eqn:Hent.
  - rewrite startsWith_cons in H. rewrite Ascii.eqb_sym, Hsp1 in H.
    discriminate H.
  - rewrite startsWith_cons in *.
    apply andb_true_iff in H. destruct H as [Hac Hrest].
    rewrite Hac. cbn [andb]. apply IH; assumption.
Qed.

Lemma includes_replaceNbspFrom : forall s skip,
  JsString.includes (JsString.replaceNbspFrom skip s) "&nbsp;" = false.
Proof.
  induction s as [|c s IH]; intros skip.
  - reflexivity.
  - cbn [JsString.replaceNbspFrom].
    destruct skip as [|k]; [|apply IH].
    destruct (JsString.startsWith "&nbsp;" (String c s)) eqn:Hent.
    + rewrite includes_cons, IH, orb_false_r. reflexivity.
    + rewrite includes_cons, IH, orb_false_r.
      destruct (JsString.startsWith "&nbsp;"
                  (String c (JsString.replaceNbspFrom 0 s))) eqn:Hst;
        [|reflexivity].
      exfalso.
      change "&nbsp;" with (String "&" "nbsp;") in Hst, Hent.
      rewrite startsWith_cons in Hst, Hent.
      apply andb_true_iff in Hst. destruct Hst as [Hc Hrest].
      rewrite Hc in Hent. cbn [andb] in Hent.
      apply (startsWith_replaceNbsp "nbsp;") in Hrest; try reflexivity.
      congruence.
Qed.

Lemma startsWith_slice0 : forall p n s,
  JsString.startsWith p (JsString.slice0 n s) = true ->
  JsString.startsWith p s = true.
Proof.
  induction p as [|a p IH]; intros n s H; [reflexivity|].
  destruct n as [|n], s as [|c s]; cbn [JsString.slice0] in H;
    try discriminate H.
  rewrite startsWith_cons in *.
  apply andb_true_iff in H. destruct H as [Hac Hrest].
  rewrite Hac. cbn [andb]. eapply IH. exact Hrest.
Qed.

Lemma includes_slice0 : forall p n s,
  JsString.includes s p = false ->
  JsString.includes (JsString.slice0 n s) p = false.
Proof.
  intros p. induction n as [|n IH]; intros s H.
  - destruct s as [|c s]; cbn [JsString.slice0]; [exact H|].
    rewrite includes_cons in H.
    apply orb_false_iff in H. destruct H as [H _].
    destruct p; [discriminate H|reflexivity].
  - destruct s as [|c s]; [exact H|].
    rewrite includes_cons in H. apply orb_false_iff in H.
    destruct H as [Hst Hrest].
    cbn [JsString.slice0].
    rewrite includes_cons, (IH s Hrest), orb_false_r.
    destruct (JsString.startsWith p (String c (JsString.slice0 n s))) eqn:Hp;
      [|reflexivity].
    change (String c (JsString.slice0 n s))
      with (JsString.slice0 (S n) (String c s)) in Hp.
    apply startsWith_slice0 in Hp. congruence.
Qed.

(** A word without a dot starts a text followed by the three dots only if
    it starts the text. *)
Lemma startsWith_dots : forall p x,
  occurs "." p = false -> p <> EmptyString ->
  JsString.startsWith p (x ++ "...")%string = JsString.startsWith p x.
Proof.
  induction p as [|a p IH]; intros x Hdot Hne; [congruence|].
  cbn [occurs] in Hdot. apply orb_false_iff in Hdot. destruct Hdot as [Ha Hp].
  destruct x as [|c x].
  - change (("" ++ "...")%string) with (String "." "..").
    rewrite startsWith_cons, Ascii.eqb_sym, Ha. reflexivity.
  - change ((String c x ++ "...")%string) with (String c (x ++ "...")%string).
    rewrite !startsWith_cons.
    destruct p as [|b p]; [reflexivity|].
    rewrite IH; [reflexivity|exact Hp|discriminate].
Qed.

Lemma includes_dots : forall p x,
  occurs "." p = false -> p <> EmptyString ->
  JsString.includes x p = false ->
  JsString.includes (x ++ "...")%string p = false.
Proof.
  intros p x Hdot Hne. induction x as [|c x IH]; intros H.
  - destruct p as [|a p]; [congruence|].
    cbn [occurs] in Hdot. apply orb_false_iff in Hdot. destruct Hdot as [Ha _].
    change (("" ++ "...")%string) with (String "." (String "." (String "." ""))).
    rewrite !includes_cons, !startsWith_cons, (Ascii.eqb_sym a), Ha.
    reflexivity.
  - rewrite includes_cons in H. apply orb_false_iff in H.
    destruct H as [Hst Hrest].
    change ((String c x ++ "...")%string) with (String c (x ++ "...")%string).
    rewrite includes_cons, (IH Hrest), orb_false_r.
    change (String c (x ++ "...")) with ((String c x ++ "...")%string).
    rewrite startsWith_dots by assumption. exact Hst.
Qed.

Lemma replaceNbspFrom_plain : forall s,
  JsString.includes s "&nbsp;" = false -> JsString.replaceNbspFrom 0 s = s.
Proof.
  induction s as [|c s IH]; intros H; [reflexivity|].
  rewrite includes_cons in H. apply orb_false_iff in H. destruct H as [Hst Hrest].
  cbn [JsString.replaceNbspFrom]. rewrite Hst, IH by exact Hrest. reflexivity.
Qed.

End Cleanup.

(** The summary of every normalized article is plain and short: at most 253
    code units (250 and the three dots), no opening angle bracket and no
    non-breaking-space entity left in it. *)
Theorem summary_plain_and_bounded :
  forall (h : host) (cfg : FeedSource) (item : RawItem),
    (String.length (summary (normalize h cfg item)) <= 253)%nat
    /\ occurs "<" (summary (normalize h cfg item)) = false
    /\ JsString.includes (summary (normalize h cfg item)) "&nbsp;" = false.
Proof.
  intros h cfg item.
  change (summary (normalize h cfg item)) with (summaryClean item).
  unfold summaryClean. destruct (truthy (description item)).
  - set (text := toStr (description item)).
    split; [|split].
    + rewrite length_append.
      pose proof (length_slice0 250
                    (JsString.replaceNbsp (JsString.stripTags text))).
      change (String.length "...") with 3%nat. lia.
    + rewrite occurs_append. apply orb_false_iff. split; [|reflexivity].
      apply occurs_slice0, occurs_replaceNbspFrom; [reflexivity|].
      apply occurs_stripTagsFrom.
    + apply includes_dots; [reflexivity|discriminate|].
      apply includes_slice0, includes_replaceNbspFrom.
  - repeat split; simpl; lia.
Qed.

(** Cleaning twice is cleaning once: a description that went through the
    tag and entity removal goes through it again unchanged. *)
Theorem cleanup_idempotent :
  forall s : string,
    let cleaned := JsString.replaceNbsp (JsString.stripTags s) in
    JsString.replaceNbsp (JsString.stripTags cleaned) = cleaned.
Proof.
  intros s cleaned. unfold JsString.replaceNbsp, JsString.stripTags.
  rewrite stripTagsFrom_plain.
  - apply replaceNbspFrom_plain. apply includes_replaceNbspFrom.
  - apply occurs_replaceNbspFrom; [reflexivity|]. apply occurs_stripTagsFrom.
Qed.

(** The id of a normalized article is never the empty string. *)
Theorem uniqueId_never_empty :
  forall (h : host) (cfg : FeedSource) (item : RawItem),
    id (normalize h cfg item) <> "".
Proof.
  intros h cfg item.
  change (id (normalize h cfg item)) with (uniqueId cfg item).
  unfold uniqueId.
  assert (Htruthy : forall o, truthy o = true -> toStr o <> "").
  { intros [s|] Ht; simpl in *; [|discriminate].
    intros ->. discriminate Ht. }
  destruct (truthy (guid item)) eqn:Hg; [now apply Htruthy|].
  destruct (truthy (link item)) eqn:Hl; [now apply Htruthy|].
  intros Heq. apply (f_equal String.length) in Heq.
  rewrite !length_append in Heq. simpl in Heq. lia.
Qed.

Section Images.

Lemma getFallbackImage_palette : forall seed,
  exists image, getFallbackImage seed = Some image /\ In image FALLBACK_IMAGES.
Proof.
  intros seed. unfold getFallbackImage.
  pose proof (fallbackIndex_range (seedHash seed)) as Hr.
  destruct (nth_error FALLBACK_IMAGES (Z.to_nat (fallbackIndex (seedHash seed))))
    as [image|] eqn:Hnth.
  - exists image. split; [reflexivity|]. eapply nth_error_In; eassumption.
  - apply nth_error_None in Hnth. lia.
Qed.

(** No image of the palette is empty or would itself be taken for a tracking
    pixel or an advertisement. *)
Lemma palette_usable : forall image,
  In image FALLBACK_IMAGES ->
  image <> ""
  /\ JsString.includes image "feedburner" = false
  /\ JsString.includes image "ads" = false.
Proof.
  assert (Hall : forallb
            (fun u => negb (String.eqb u "")
                      && negb (JsString.includes u "feedburner")
                      && negb (JsString.includes u "ads"))
            FALLBACK_IMAGES = true) by (vm_compute; reflexivity).
  intros image Hin. rewrite forallb_forall in Hall. specialize (Hall image Hin).
  apply andb_true_iff in Hall. destruct Hall as [Hall Hads].
  apply andb_true_iff in Hall. destruct Hall as [Hne Hfb].
  apply negb_true_iff in Hne, Hfb, Hads.
  split; [now apply String.eqb_neq|]. split; assumption.
Qed.

Lemma untilQuote_sound : forall body g,
  JsString.untilQuote body = Some g ->
  exists q post,
    body = (g ++ String q post)%string
    /\ JsString.isQuote q = true
    /\ forall c, occurs c g = true -> JsString.isQuote c = false.
Proof.
  induction body as [|c body IH]; intros g H; [discriminate H|].
  cbn [JsString.untilQuote] in H.
  destruct (JsString.isQuote c) eqn:Hq.
  - inversion H; subst g. exists c, body. split; [reflexivity|].
    split; [exact Hq|]. intros d Hd. discriminate Hd.
  - destruct (JsString.untilQuote body) as [g'|] eqn:Hu; [|discriminate H].
    inversion H; subst g.
    destruct (IH g' eq_refl) as (q & post & Hbody & Hquote & Hfree).
    exists q, post. split; [rewrite Hbody; reflexivity|].
    split; [exact Hquote|].
    intros d Hd. cbn [occurs] in Hd. apply orb_true_iff in Hd.
    destruct Hd as [Hd|Hd]; [|now apply Hfree].
    apply Ascii.eqb_eq in Hd. now subst d.
Qed.

Lemma startsWith_drop : forall p s,
  JsString.startsWith p s = true ->
  s = (p ++ JsString.drop (String.length p) s)%string.
Proof.
  induction p as [|a p IH]; intros s H.
  - destruct s; reflexivity.
  - destruct s as [|c s]; [discriminate H|].
    rewrite startsWith_cons in H. apply andb_true_iff in H.
    destruct H as [Hac Hrest]. apply Ascii.eqb_eq in Hac. subst c.
    cbn [String.length JsString.drop String.append].
    f_equal. apply IH, Hrest.
Qed.

End Images.

(** The image of every normalized article is usable: it is a non-empty
    address that mentions neither [feedburner] nor [ads], whatever the item
    carried. *)
Theorem imageUrl_always_usable :
  forall (h : host) (cfg : FeedSource) (item : RawItem),
    exists u,
      imageUrl (normalize h cfg item) = Some u
      /\ u <> ""
      /\ JsString.includes u "feedburner" = false
      /\ JsString.includes u "ads" = false.
Proof.
  intros h cfg item.
  change (imageUrl (normalize h cfg item))
    with (if negb (truthy (extractImage item))
             || JsString.includes (toStr (extractImage item)) "feedburner"
             || JsString.includes (toStr (extractImage item)) "ads"
          then getFallbackImage
                 (if truthy (title item) then toStr (title item)
                  else uniqueId cfg item)
          else extractImage item).
  destruct (negb (truthy (extractImage item))
            || JsString.includes (toStr (extractImage item)) "feedburner"
            || JsString.includes (toStr (extractImage item)) "ads") eqn:Hbad.
  - destruct (getFallbackImage_palette
                (if truthy (title item) then toStr (title item)
                 else uniqueId cfg item)) as (image & Himg & Hin).
    exists image. split; [exact Himg|]. now apply palette_usable.
  - apply orb_false_iff in Hbad. destruct Hbad as [Hbad Hads].
    apply orb_false_iff in Hbad. destruct Hbad as [Htruthy Hfb].
    apply negb_false_iff in Htruthy.
    destruct (extractImage item) as [u|]; [|discriminate Htruthy].
    exists u. split; [reflexivity|]. split; [|split; assumption].
    simpl in Htruthy. apply negb_true_iff in Htruthy.
    now apply String.eqb_neq.
Qed.

(** What the image pattern extracts is literally in the markup: the text
    between a quote that follows [src=] and the next quote, itself free of
    quotes. *)
Theorem matchSrc_sound :
  forall (s g : string),
    JsString.matchSrc s = Some g ->
    exists pre q1 q2 post,
      s = (pre ++ "src=" ++ String q1 (g ++ String q2 post))%string
      /\ JsString.isQuote q1 = true
      /\ JsString.isQuote q2 = true
      /\ forall c, occurs c g = true -> JsString.isQuote c = false.
Proof.
  induction s as [|c s IH]; intros g H; [discriminate H|].
  cbn [JsString.matchSrc] in H.
  destruct (JsString.startsWith "src=" (String c s)) eqn:Hsrc.
  - apply startsWith_drop in Hsrc.
    change (String.length "src=") with 4%nat in Hsrc.
    destruct (JsString.drop 4 (String c s)) as [|q body] eqn:Hdrop.
    + destruct (IH g H) as (pre & q1 & q2 & post & Hs & Hrest).
      exists (String c pre), q1, q2, post. split; [rewrite Hs; reflexivity|exact Hrest].
    + destruct (JsString.isQuote q) eqn:Hq.
      * destruct (JsString.untilQuote body) as [g'|] eqn:Hu.
        -- inversion H; subst g'.
           destruct (untilQuote_sound body g Hu) as (q2 & post & Hbody & Hq2 & Hfree).
           exists "", q, q2, post. split; [|auto].
           rewrite Hsrc, Hbody. reflexivity.
        -- destruct (IH g H) as (pre & q1 & q2 & post & Hs & Hrest).
           exists (String c pre), q1, q2, post.
           split; [rewrite Hs; reflexivity|exact Hrest].
      * destruct (IH g H) as (pre & q1 & q2 & post & Hs & Hrest).
        exists (String c pre), q1, q2, post.
        split; [rewrite Hs; reflexivity|exact Hrest].
  - destruct (IH g H) as (pre & q1 & q2 & post & Hs & Hrest).
    exists (String c pre), q1, q2, post.
    split; [rewrite Hs; reflexivity|exact Hrest].
Qed.

Lemma matchSrc_witness :
  exists pre q1 q2 post,
    "<img alt='x' src='http://a/b.png'>"
    = (pre ++ "src=" ++ String q1 ("http://a/b.png" ++ String q2 post))%string
    /\ JsString.isQuote q1 = true
    /\ JsString.isQuote q2 = true
    /\ forall c, occurs c "http://a/b.png" = true -> JsString.isQuote c = false.
Proof.
  apply (matchSrc_sound "<img alt='x' src='http://a/b.png'>" "http://a/b.png").
  reflexivity.
Defined.

(** * Further properties of the classifier *)

Section Substrings.

Lemma includes_unfold : forall hay p,
  JsString.includes hay p
  = JsString.startsWith p hay
    || match hay with
       | EmptyString => false
       | String _ h => JsString.includes h p
       end.
Proof. destruct hay; reflexivity. Qed.

Lemma startsWith_spec : forall p s,
  JsString.startsWith p s = true <-> exists t, s = (p ++ t)%string.
Proof.
  split.
  - intros H. exists (JsString.drop (String.length p) s). now apply startsWith_drop.
  - intros [t ->]. apply startsWith_append.
Qed.

(** [includes] is the substring test. *)
Lemma includes_spec : forall hay p,
  JsString.includes hay p = true <-> exists a b, hay = (a ++ p ++ b)%string.
Proof.
  induction hay as [|c hay IH]; intros p; rewrite includes_unfold.
  - split.
    + intros H. rewrite orb_false_r in H. apply startsWith_spec in H.
      destruct H as [t Ht]. exists "", t. exact Ht.
    + intros (a & b & H). rewrite orb_false_r. apply startsWith_spec.
      destruct a; [exists b; exact H|discriminate H].
  - split.
    + intros H. apply orb_true_iff in H. destruct H as [H|H].
      * apply startsWith_spec in H. destruct H as [t Ht]. exists "", t. exact Ht.
      * apply IH in H. destruct H as (a & b & ->).
        exists (String c a), b. reflexivity.
    + intros (a & b & H). apply orb_true_iff. destruct a as [|d a].
      * left. apply startsWith_spec. exists b. exact H.
      * right. apply IH. exists a, b. simpl in H. now inversion H.
Qed.

Lemma toLowerCase_append : forall a b,
  JsString.toLowerCase (a ++ b)
  = (JsString.toLowerCase a ++ JsString.toLowerCase b)%string.
Proof.
  induction a as [|c a IH]; intros b; cbn [JsString.toLowerCase String.append].
  - reflexivity.
  - now rewrite IH.
Qed.

Lemma append_assoc : forall a b c : string,
  ((a ++ b) ++ c)%string = (a ++ (b ++ c))%string.
Proof.
  induction a as [|x a IH]; intros b c; simpl; [reflexivity|].
  now rewrite IH.
Qed.

Lemma existsb_incl : forall (f : string -> bool) (l1 l2 : list string),
  incl l1 l2 -> existsb f l1 = true -> existsb f l2 = true.
Proof.
  intros f l1 l2 Hincl H. apply existsb_exists in H. destruct H as (x & Hx & Hf).
  apply existsb_exists. exists x. split; [apply Hincl, Hx|exact Hf].
Qed.

End Substrings.

(** The two signals are pure substring tests on the lower-cased text: a text
    is breaking exactly when some high-impact keyword is a substring of it;
    it is Bullish exactly when some bullish keyword is, Bearish exactly when
    no bullish keyword but some bearish keyword is, and Neutral exactly when
    no keyword of either list is. *)
Theorem classifier_substring_semantics :
  forall text : string,
    let t := JsString.toLowerCase text in
    let holds := fun words =>
      exists w a b, In w words /\ t = (a ++ w ++ b)%string in
    (checkForBreakingContext text = true <-> holds highImpactKeywords)
    /\ (analyzeSentiment text = Bullish <-> holds bullish)
    /\ (analyzeSentiment text = Bearish <-> ~ holds bullish /\ holds bearish)
    /\ (analyzeSentiment text = Neutral <-> ~ holds bullish /\ ~ holds bearish).
Proof.
  intros text t holds.
  assert (Hex : forall words,
            existsb (fun w => JsString.includes t w) words = true <-> holds words).
  { intros words. unfold holds. rewrite existsb_exists. split.
    - intros (w & Hin & Hinc). apply includes_spec in Hinc.
      destruct Hinc as (a & b & Hab). exists w, a, b. split; assumption.
    - intros (w & a & b & Hin & Hab). exists w. split; [exact Hin|].
      apply includes_spec. exists a, b. exact Hab. }
  split; [apply Hex|].
  unfold analyzeSentiment. fold t.
  rewrite <- (Hex bullish), <- (Hex bearish).
  destruct (existsb (fun w => JsString.includes t w) bullish);
    destruct (existsb (fun w => JsString.includes t w) bearish);
    repeat split; intros; try discriminate; try reflexivity;
    intuition discriminate.
Qed.

(** A headline that ends with the word Fed, in any case, is flagged as
    breaking: the keyword carries a trailing space and the headline is
    followed by one before the summary. *)
Theorem headline_ending_in_fed_is_breaking :
  forall (h : host) (cfg : FeedSource) (item : RawItem) (pre word : string),
    title item = Some (pre ++ word)%string ->
    JsString.toLowerCase word = "fed" ->
    isBreaking (normalize h cfg item) = true.
Proof.
  intros h cfg item pre word Htitle Hword.
  change (isBreaking (normalize h cfg item))
    with (checkForBreakingContext
            (toStr (title item) ++ " " ++ summaryClean item)%string).
  unfold checkForBreakingContext.
  apply existsb_exists. exists "fed ". split; [left; reflexivity|].
  apply includes_spec.
  exists (JsString.toLowerCase pre), (JsString.toLowerCase (summaryClean item)).
  rewrite Htitle. cbn [toStr].
  rewrite !toLowerCase_append, Hword, !append_assoc. reflexivity.
Qed.

Lemma headline_ending_in_fed_witness :
  isBreaking
    (normalize Scenario.firstVisit Scenario.forexLive
       {| title := Some "Traders await the FED"; description := None;
          content := None; pubDate := None; link := None; guid := None;
          thumbnail := None; enclosureLink := None; itemAuthor := None |})
  = true.
Proof.
  apply (headline_ending_in_fed_is_breaking _ _ _ "Traders await the " "FED");
    reflexivity.
Defined.

(** The classifier of [newsService.ts] extends the older one of
    [geminiService.ts]: whatever the older one calls Bullish stays Bullish,
    and the two agree on every text in which none of the four added keywords
    (recovers, record high, sinks, lows) occurs. *)
Theorem analyzeSentiment_extends_determineSentiment :
  forall text : string,
    (determineSentiment text = Bullish -> analyzeSentiment text = Bullish)
    /\ (analyzeSentiment text = Neutral -> determineSentiment text = Neutral)
    /\ (existsb (fun w => JsString.includes (JsString.toLowerCase text) w)
          [ "recovers"; "record high"; "sinks"; "lows" ] = false ->
        analyzeSentiment text = determineSentiment text).
Proof.
  intros text. unfold analyzeSentiment, determineSentiment.
  set (t := JsString.toLowerCase text).
  set (f := fun w => JsString.includes t w).
  assert (Hbull : existsb f bullish
                  = existsb f bullishTerms || existsb f ["recovers"; "record high"]).
  { change bullish with (bullishTerms ++ ["recovers"; "record high"]).
    apply existsb_app. }
  assert (Hbear : existsb f bearish
                  = existsb f bearishTerms || existsb f ["sinks"; "lows"]).
  { change bearish with (bearishTerms ++ ["sinks"; "lows"]).
    apply existsb_app. }
  rewrite Hbull, Hbear.
  change (existsb f ["recovers"; "record high"; "sinks"; "lows"])
    with (existsb f (["recovers"; "record high"] ++ ["sinks"; "lows"])).
  rewrite existsb_app.
  destruct (existsb f bullishTerms), (existsb f bearishTerms),
    (existsb f ["recovers"; "record high"]), (existsb f ["sinks"; "lows"]);
    cbn [orb]; repeat split; intros; try reflexivity; try discriminate.
Qed.

(** * Further properties of the placeholder hash *)

Section HashArithmetic.

Lemma toInt32_mod : forall z, toInt32 z mod 2 ^ 32 = z mod 2 ^ 32.
Proof.
  intros z. unfold toInt32.
  destruct (Z.leb_spec (2 ^ 31) (z mod 2 ^ 32)).
  - replace (z mod 2 ^ 32 - 2 ^ 32) with (z mod 2 ^ 32 + (-1) * 2 ^ 32) by lia.
    rewrite Z.mod_add by lia. apply Z.mod_mod. lia.
  - apply Z.mod_mod. lia.
Qed.

Lemma hashStep_mod : forall hash code,
  hashStep hash code mod 2 ^ 32 = (31 * hash + code) mod 2 ^ 32.
Proof.
  intros hash code. unfold hashStep. rewrite shl32_5_mul.
  replace (code + (toInt32 (32 * hash) - hash))
    with (toInt32 (32 * hash) + (code - hash)) by lia.
  rewrite Z.add_mod, toInt32_mod, <- Z.add_mod by lia.
  f_equal. lia.
Qed.

Lemma fold_hash_mod : forall codes h1 h2,
  h1 mod 2 ^ 32 = h2 mod 2 ^ 32 ->
  fold_left hashStep codes h1 mod 2 ^ 32
  = fold_left (fun hash code => 31 * hash + code) codes h2 mod 2 ^ 32.
Proof.
  induction codes as [|c codes IH]; intros h1 h2 H; cbn [fold_left].
  - exact H.
  - apply IH. rewrite hashStep_mod.
    rewrite (Z.add_mod (31 * h1)), (Z.add_mod (31 * h2)) by lia.
    rewrite (Z.mul_mod 31 h1), (Z.mul_mod 31 h2), H by lia. reflexivity.
Qed.

End HashArithmetic.

(** The hash is the base-31 polynomial of the code units up to a multiple of
    2^32, and is that polynomial itself for a seed of at most four code
    units. *)
Theorem rollingHash_is_poly31 :
  (forall codes : list Z,
     rollingHash codes mod 2 ^ 32 = poly31 codes mod 2 ^ 32)
  /\ (forall codes : list Z,
        Forall (fun c => 0 <= c < 2 ^ 16) codes ->
        (List.length codes <= 4)%nat ->
        rollingHash codes = poly31 codes).
Proof.
  split.
  - intros codes. unfold poly31.
    change (rollingHash codes) with (fold_left hashStep codes 0).
    apply fold_hash_mod. reflexivity.
  - intros codes Hrange Hlen. unfold poly31.
    change (rollingHash codes) with (fold_left hashStep codes 0).
    destruct codes as [|c1 [|c2 [|c3 [|c4 [|c5 rest]]]]];
      cbn [fold_left List.length] in *; try lia;
      repeat match goal with
             | H : Forall _ (_ :: _) |- _ => inversion H; subst; clear H
             end;
      repeat match goal with
             | |- context [hashStep ?h ?c] =>
                 lazymatch h with
                 | context [hashStep] => fail
                 | _ => rewrite (hashStep_small h c) by lia
                 end
             end;
      reflexivity.
Qed.

(** For a seed of fewer than 2^21 code units the hash stays, at every turn
    of the loop, below 2^53 in absolute value: the numbers of the program
    hold it exactly. *)
Theorem rollingHash_exact_in_double :
  forall (codes pre post : list Z),
    Forall (fun c => 0 <= c < 2 ^ 16) codes ->
    Z.of_nat (List.length codes) < 2 ^ 21 ->
    codes = pre ++ post ->
    Z.abs (rollingHash pre) < 2 ^ 53.
Proof.
  intros codes pre post Hrange Hlen ->.
  apply Forall_app in Hrange. destruct Hrange as [Hpre _].
  pose proof (rollingHash_bound pre 0 Hpre) as Hb.
  change (fold_left hashStep pre 0) with (rollingHash pre) in Hb.
  rewrite length_app, Nat2Z.inj_add in Hlen.
  change (2 ^ 53) with (2 ^ 32 * 2 ^ 21).
  change (Z.abs 0) with 0 in Hb. lia.
Qed.

Lemma rollingHash_exact_witness :
  Z.abs (rollingHash [70; 101]) < 2 ^ 53.
Proof.
  apply (rollingHash_exact_in_double [70; 101; 100] [70; 101] [100]).
  - repeat constructor; lia.
  - simpl. lia.
  - reflexivity.
Defined.

(** * Further properties of the merge and of the archive *)

Section MapStructure.

Lemma mapSet_absent : forall m k v,
  ~ In k (map fst m) -> mapSet m k v = m ++ [(k, v)].
Proof.
  induction m as [|[k0 v0] m IH]; intros k v Hnot; cbn [mapSet app].
  - reflexivity.
  - destruct (String.eqb_spec k0 k) as [->|Hne].
    + exfalso. apply Hnot. now left.
    + rewrite IH; [reflexivity|]. intros Hin. apply Hnot. now right.
Qed.

Lemma mapSet_keys_present : forall m k v,
  In k (map fst m) -> map fst (mapSet m k v) = map fst m.
Proof.
  induction m as [|[k0 v0] m IH]; intros k v Hin; cbn [mapSet map fst] in *.
  - destruct Hin.
  - destruct (String.eqb_spec k0 k) as [->|Hne]; [reflexivity|].
    cbn [map fst]. rewrite IH; [reflexivity|].
    destruct Hin as [Heq|Hin]; [congruence|exact Hin].
Qed.

(** Setting a list of articles keeps the keys in place and appends the new
    ones. *)
Lemma keys_setAll : forall l m,
  exists extra,
    map fst (setAll m l) = map fst m ++ extra
    /\ forall k, In k extra -> In k (map id l) /\ ~ In k (map fst m).
Proof.
  unfold setAll. induction l as [|a l IH]; intros m; cbn [fold_left].
  - exists []. split; [now rewrite app_nil_r|]. intros k [].
  - destruct (IH (mapSet m (id a) a)) as (extra & Hkeys & Hextra).
    destruct (in_dec String.string_dec (id a) (map fst m)) as [Hin|Hnot].
    + rewrite mapSet_keys_present in Hkeys, Hextra by exact Hin.
      exists extra. split; [exact Hkeys|].
      intros k Hk. destruct (Hextra k Hk). split; [right|]; assumption.
    + rewrite mapSet_absent in Hkeys, Hextra |- * by exact Hnot.
      assert (Hk1 : map fst (m ++ [(id a, a)]) = map fst m ++ [id a])
        by (rewrite map_app; reflexivity).
      rewrite Hk1 in Hkeys.
      exists (id a :: extra). split; [rewrite Hkeys, <- app_assoc; reflexivity|].
      intros k [<-|Hk].
      * split; [now left|exact Hnot].
      * destruct (Hextra k Hk) as [Hl Hn]. split; [now right|].
        intros Hm. apply Hn. rewrite Hk1. apply in_or_app. now left.
Qed.

(** A list of articles with distinct ids, set into a map that has none of
    them, goes behind it entry by entry. *)
Lemma setAll_distinct : forall l m,
  NoDup (map fst m ++ map id l) ->
  setAll m l = m ++ map (fun a => (id a, a)) l.
Proof.
  unfold setAll. induction l as [|a l IH]; intros m Hnd; cbn [fold_left map].
  - now rewrite app_nil_r.
  - assert (Hnot : ~ In (id a) (map fst m)).
    { intros Hin. apply NoDup_remove_2 in Hnd. apply Hnd, in_or_app. now left. }
    rewrite mapSet_absent by exact Hnot.
    rewrite IH.
    + rewrite <- app_assoc. reflexivity.
    + rewrite map_app. cbn [map fst]. rewrite <- app_assoc. exact Hnd.
Qed.

Lemma values_by_lookup : forall m,
  NoDup (map fst m) ->
  map Some (mapValues m) = map (lookup m) (map fst m).
Proof.
  unfold mapValues.
  induction m as [|[k v] m IH]; intros Hnd; cbn [map fst snd lookup].
  - reflexivity.
  - inversion Hnd as [|? ? Hnot Hnd']; subst.
    rewrite String.eqb_refl. f_equal.
    rewrite IH by exact Hnd'. apply map_ext_in.
    intros k' Hk'. destruct (String.eqb_spec k k') as [->|Hne];
      [contradiction|reflexivity].
Qed.

Lemma map_Some_inj : forall (A : Type) (l1 l2 : list A),
  map Some l1 = map Some l2 -> l1 = l2.
Proof.
  induction l1 as [|x l1 IH]; intros [|y l2] H; try discriminate; [reflexivity|].
  inversion H; subst. f_equal. now apply IH.
Qed.

Lemma filter_none : forall (A : Type) (f : A -> bool) (l : list A),
  (forall x, In x l -> f x = false) -> filter f l = [].
Proof.
  induction l as [|x l IH]; intros H; cbn [filter]; [reflexivity|].
  rewrite (H x (or_introl eq_refl)). apply IH. intros y Hy. apply H. now right.
Qed.

Lemma filter_all : forall (A : Type) (f : A -> bool) (l : list A),
  (forall x, In x l -> f x = true) -> filter f l = l.
Proof.
  induction l as [|x l IH]; intros H; cbn [filter]; [reflexivity|].
  rewrite (H x (or_introl eq_refl)). f_equal. apply IH.
  intros y Hy. apply H. now right.
Qed.

End MapStructure.

Section SortedLists.

(** Sorting a list that is already in descending order leaves it as it
    is. *)
Lemma sortArticles_sorted : forall l,
  Sorted newerOrEqual l -> sortArticles l = l.
Proof.
  induction l as [|a l IH]; intros Hs; cbn [sortArticles fold_right].
  - reflexivity.
  - inversion Hs as [|? ? Hs' Hhd]; subst.
    change (fold_right insertSorted [] l) with (sortArticles l).
    rewrite IH by exact Hs'.
    destruct l as [|b l]; [reflexivity|].
    inversion Hhd as [|? ? Hab]; subst.
    destruct Hab as (ta & tb & Ha & Hb & Hge).
    cbn [insertSorted]. rewrite (keepsOrder_dated a b ta tb Ha Hb).
    destruct (Z.leb_spec tb ta); [reflexivity|lia].
Qed.

Lemma filter_Sorted : forall (f : NewsArticle -> bool) l,
  Sorted newerOrEqual l -> Sorted newerOrEqual (filter f l).
Proof.
  intros f l Hs.
  apply Sorted_StronglySorted in Hs;
    [|intros x y z; apply newerOrEqual_trans].
  apply StronglySorted_Sorted.
  induction Hs as [|a l Hs IH Hall]; cbn [filter]; [constructor|].
  destruct (f a); [|exact IH].
  constructor; [exact IH|].
  rewrite Forall_forall in *. intros x Hx. apply filter_In in Hx. now apply Hall.
Qed.

Lemma NoDup_ids_firstn : forall n (l : list NewsArticle),
  NoDup (map id l) -> NoDup (map id (firstn n l)).
Proof.
  intros n l Hnd. rewrite <- (firstn_skipn n l), map_app in Hnd.
  now apply NoDup_app_remove_r in Hnd.
Qed.

Lemma NoDup_ids_unique : forall (l : list NewsArticle) a b,
  NoDup (map id l) -> In a l -> In b l -> id b = id a -> b = a.
Proof.
  induction l as [|x l IH]; intros a b Hnd Ha Hb Hid; [destruct Ha|].
  cbn [map] in Hnd. inversion Hnd as [|? ? Hnot Hnd']; subst.
  destruct Ha as [->|Ha], Hb as [->|Hb].
  - reflexivity.
  - exfalso. apply Hnot. rewrite <- Hid. now apply in_map.
  - exfalso. apply Hnot. rewrite Hid. now apply in_map.
  - now apply IH.
Qed.

End SortedLists.

(** An archive that is clean (distinct ids, descending order) absorbs a fresh
    list that brings nothing new: when every fresh article that is last under
    its id is either the archived article of that id or not recent, the merge
    is the archive pruned to the retention window, in the same order. *)
Lemma merge_absorbs : forall nowMs archived fresh,
  NoDup (map id archived) ->
  Sorted newerOrEqual archived ->
  (forall a f, In a archived -> lookupLast fresh (id a) = Some f -> f = a) ->
  (forall f, lookupLast fresh (id f) = Some f ->
             ~ In (id f) (map id archived) -> recent nowMs f = false) ->
  mergedArticles nowMs archived fresh = filter (recent nowMs) archived.
Proof.
  intros nowMs archived fresh Hnd Hsorted Hsame Hnew.
  unfold mergedArticles.
  change (fun a => num_gt (publishedAt a) (nowMs - ONE_WEEK_MS))
    with (recent nowMs).
  assert (Hvalues : exists rest,
            mapValues (articleMap archived fresh) = archived ++ rest
            /\ forall f, In f rest -> recent nowMs f = false).
  { assert (Hkeys0 : setAll [] archived = map (fun a => (id a, a)) archived).
    { rewrite setAll_distinct; [reflexivity|exact Hnd]. }
    destruct (keys_setAll fresh (setAll [] archived)) as (extra & Hkeys & Hextra).
    fold (articleMap archived fresh) in Hkeys.
    rewrite Hkeys0, map_map in Hkeys, Hextra. cbn [fst] in Hkeys, Hextra.
    change (map (fun x => id x) archived) with (map id archived) in Hkeys, Hextra.
    pose proof (values_by_lookup _ (NoDup_articleMap archived fresh)) as Hval.
    rewrite Hkeys, map_app in Hval.
    assert (Hfirst : map (lookup (articleMap archived fresh)) (map id archived)
                     = map Some archived).
    { rewrite map_map. apply map_ext_in. intros a Ha.
      rewrite lookup_articleMap, lookupLast_app.
      destruct (lookupLast fresh (id a)) as [f|] eqn:Hf.
      - f_equal. eapply Hsame; eassumption.
      - apply lookupLast_unique; [exact Ha|].
        intros b Hb Hid. eapply NoDup_ids_unique; eassumption. }
    rewrite Hfirst in Hval.
    set (values := mapValues (articleMap archived fresh)) in *.
    exists (skipn (List.length archived) values).
    assert (Hsplit : map Some values
                     = map Some (firstn (List.length archived) values)
                       ++ map Some (skipn (List.length archived) values)).
    { rewrite <- map_app, firstn_skipn. reflexivity. }
    assert (Hlen : List.length (map Some (firstn (List.length archived) values))
                   = List.length (map Some archived)).
    { rewrite !length_map, firstn_length_le; [reflexivity|].
      apply (f_equal (@List.length _)) in Hval.
      rewrite length_app, !length_map in Hval. lia. }
    rewrite Hsplit in Hval. apply app_eq_app in Hval.
    destruct Hval as (mid & [[H1 H2]|[H1 H2]]).
    - (* the two first parts have the same length, so [mid] is empty *)
      assert (mid = []).
      { apply (f_equal (@List.length _)) in H1. rewrite length_app in H1.
        destruct mid; [reflexivity|cbn in H1; lia]. }
      subst mid. rewrite app_nil_r in H1. cbn [app] in H2.
      apply map_Some_inj in H1. split.
      + transitivity (firstn (List.length archived) values
                      ++ skipn (List.length archived) values).
        * symmetry. apply firstn_skipn.
        * f_equal. exact H1.
      + intros f Hf. apply (in_map Some) in Hf. rewrite <- H2 in Hf.
        apply in_map_iff in Hf. destruct Hf as (k & Hk & Hin).
        destruct (Hextra k Hin) as [Hfresh Hnot].
        rewrite lookup_articleMap, lookupLast_app in Hk.
        destruct (lookupLast fresh k) as [g|] eqn:Hg.
        * inversion Hk; subst g.
          pose proof (lookupLast_Some _ _ _ Hg) as [_ Hid]. subst k.
          now apply Hnew.
        * apply lookupLast_None in Hg. contradiction.
    - assert (mid = []).
      { apply (f_equal (@List.length _)) in H1. rewrite length_app in H1.
        destruct mid; [reflexivity|cbn in H1; lia]. }
      subst mid. rewrite app_nil_r in H1. cbn [app] in H2.
      symmetry in H1. apply map_Some_inj in H1. split.
      + transitivity (firstn (List.length archived) values
                      ++ skipn (List.length archived) values).
        * symmetry. apply firstn_skipn.
        * f_equal. exact H1.
      + intros f Hf. apply (in_map Some) in Hf. rewrite H2 in Hf.
        apply in_map_iff in Hf. destruct Hf as (k & Hk & Hin).
        destruct (Hextra k Hin) as [Hfresh Hnot].
        rewrite lookup_articleMap, lookupLast_app in Hk.
        destruct (lookupLast fresh k) as [g|] eqn:Hg.
        * inversion Hk; subst g.
          pose proof (lookupLast_Some _ _ _ Hg) as [_ Hid]. subst k.
          now apply Hnew.
        * apply lookupLast_None in Hg. contradiction. }
  destruct Hvalues as (rest & -> & Hrest).
  rewrite filter_app, (filter_none _ _ rest Hrest), app_nil_r.
  apply sortArticles_sorted, filter_Sorted, Hsorted.
Qed.

Section Refresh.

Lemma recent_later : forall now1 now2 a,
  now1 <= now2 -> recent now2 a = true -> recent now1 a = true.
Proof.
  unfold recent, num_gt. intros now1 now2 a Hle H.
  destruct (publishedAt a) as [|t]; [discriminate|].
  apply Z.ltb_lt in H. apply Z.ltb_lt. lia.
Qed.

Lemma filter_recent_later : forall now1 now2 l,
  now1 <= now2 ->
  filter (recent now2) (filter (recent now1) l) = filter (recent now2) l.
Proof.
  intros now1 now2 l Hle. induction l as [|a l IH]; cbn [filter]; [reflexivity|].
  destruct (recent now1 a) eqn:H1; cbn [filter].
  - rewrite IH. reflexivity.
  - destruct (recent now2 a) eqn:H2; [|exact IH].
    apply (recent_later now1) in H2; [congruence|exact Hle].
Qed.

Lemma insertSorted_front : forall a l,
  (forall c, In c l -> keepsOrder a c = true) -> insertSorted a l = a :: l.
Proof.
  intros a [|b l] H; cbn [insertSorted]; [reflexivity|].
  rewrite H; [reflexivity|now left].
Qed.

(** On dated articles in descending order, inserting and filtering
    commute. *)
Lemma filter_insertSorted : forall (p : NewsArticle -> bool) a s,
  (exists t, publishedAt a = Fin t) ->
  allDated s -> Sorted newerOrEqual s ->
  filter p (insertSorted a s)
  = if p a then insertSorted a (filter p s) else filter p s.
Proof.
  intros p a s [ta Ha] Hdated Hs.
  apply Sorted_StronglySorted in Hs;
    [|intros x y z; apply newerOrEqual_trans].
  induction Hs as [|b s Hs IH Hall]; cbn [insertSorted filter].
  - destruct (p a); reflexivity.
  - assert (Hdated' : allDated s) by (intros c Hc; apply Hdated; now right).
    specialize (IH Hdated').
    destruct (Hdated b (or_introl eq_refl)) as [tb Hb].
    destruct (keepsOrder a b) eqn:Hk.
    + cbn [filter]. destruct (p a) eqn:Hpa; [|reflexivity].
      rewrite insertSorted_front; [reflexivity|].
      intros c Hc.
      assert (Hbc : c = b \/ In c s).
      { destruct (p b).
        - destruct Hc as [<-|Hc]; [now left|].
          right. apply filter_In in Hc. exact (proj1 Hc).
        - right. apply filter_In in Hc. exact (proj1 Hc). }
      rewrite (keepsOrder_dated a b ta tb Ha Hb) in Hk. apply Z.leb_le in Hk.
      destruct Hbc as [->|Hin]; [rewrite (keepsOrder_dated a b ta tb Ha Hb); now apply Z.leb_le|].
      rewrite Forall_forall in Hall.
      destruct (Hall c Hin) as (tb' & tc & Hb' & Hc' & Hge).
      rewrite Hb in Hb'. inversion Hb'; subst tb'.
      rewrite (keepsOrder_dated a c ta tc Ha Hc'). apply Z.leb_le. lia.
    + cbn [filter]. rewrite IH.
      destruct (p b), (p a); cbn [insertSorted]; rewrite ?Hk; reflexivity.
Qed.

Lemma filter_sortArticles : forall (p : NewsArticle -> bool) l,
  allDated l -> filter p (sortArticles l) = sortArticles (filter p l).
Proof.
  intros p l. induction l as [|a l IH]; intros Hdated; [reflexivity|].
  assert (Hdated' : allDated l) by (intros c Hc; apply Hdated; now right).
  cbn [sortArticles fold_right filter].
  change (fold_right insertSorted [] l) with (sortArticles l).
  rewrite filter_insertSorted.
  - rewrite (IH Hdated'). destruct (p a); reflexivity.
  - apply Hdated. now left.
  - intros c Hc. apply Hdated'. exact (proj1 (In_sortArticles l c) Hc).
  - apply sortArticles_Sorted. exact Hdated'.
Qed.

Lemma allDated_recent : forall nowMs l, allDated (filter (recent nowMs) l).
Proof.
  intros nowMs l a Ha. apply filter_In in Ha. destruct Ha as [_ Ha].
  apply num_gt_dated in Ha. destruct Ha as (t & Ht & _). now exists t.
Qed.

(** The same articles merged under a later clock: the earlier merge, pruned
    to the later window. *)
Lemma mergedArticles_later : forall now1 now2 archived fresh,
  now1 <= now2 ->
  mergedArticles now2 archived fresh
  = filter (recent now2) (mergedArticles now1 archived fresh).
Proof.
  intros now1 now2 archived fresh Hle. unfold mergedArticles.
  change (fun a => num_gt (publishedAt a) (now1 - ONE_WEEK_MS)) with (recent now1).
  change (fun a => num_gt (publishedAt a) (now2 - ONE_WEEK_MS)) with (recent now2).
  rewrite filter_sortArticles by apply allDated_recent.
  rewrite filter_recent_later by exact Hle. reflexivity.
Qed.

(** Merging the result of a merge with the same fresh articles, under a later
    clock, only prunes it. *)
Lemma mergedArticles_again : forall now1 now2 archived fresh,
  now1 <= now2 ->
  mergedArticles now2 (mergedArticles now1 archived fresh) fresh
  = filter (recent now2) (mergedArticles now1 archived fresh).
Proof.
  intros now1 now2 archived fresh Hle.
  apply merge_absorbs.
  - apply NoDup_mergedArticles.
  - apply descending_Sorted, descending_mergedArticles.
  - intros a f Ha Hf. apply In_mergedArticles in Ha. destruct Ha as [Ha _].
    rewrite lookupLast_app, Hf in Ha. congruence.
  - intros f Hf Hnot. destruct (recent now2 f) eqn:Hr; [|reflexivity].
    exfalso. apply Hnot. apply in_map. apply In_mergedArticles. split.
    + rewrite lookupLast_app, Hf. reflexivity.
    + apply (recent_later now1 now2); assumption.
Qed.

Lemma length_filter_le : forall (A : Type) (p : A -> bool) (l : list A),
  (List.length (filter p l) <= List.length l)%nat.
Proof.
  intros A p l. induction l as [|a l IH]; cbn [filter List.length]; [lia|].
  destruct (p a); cbn [List.length]; lia.
Qed.

End Refresh.

(** When the feeds deliver the same articles again, a later call only ages
    the list: it returns the list of the earlier call, pruned to the retention
    window of the later clock, whether the earlier save went through or not.
    With the same clock the list comes back as it was.  (Lists of more than
    200 articles are left out: the second save may store a prefix only.) *)
Theorem unchanged_feeds_only_age_the_list :
  forall (h1 h2 : host) (sources : list FeedSource) (st st1 : Storage)
         (l : list NewsArticle),
    aggregate h1 sources st = (Normal l, st1) ->
    (List.length l <= 200)%nat ->
    freshArticles h2 sources = freshArticles h1 sources ->
    now h1 <= now h2 ->
    fst (fetchMarketNewsFrom sources h2 st1)
    = Normal (RList (filter (recent (now h2)) l))
    /\ (now h2 = now h1 -> fst (fetchMarketNewsFrom sources h2 st1) = Normal (RList l)).
Proof.
  intros h1 h2 sources st st1 l Hrun Hlen Hfresh Hle.
  assert (Hmain : fst (fetchMarketNewsFrom sources h2 st1)
                  = Normal (RList (filter (recent (now h2)) l))).
  { apply aggregate_Normal in Hrun. destruct Hrun as [Hm Hrun].
    pose proof (mergeResult_Normal _ _ _ _ Hm) as (fresh & archived & Hf & Ha & Hl).
    assert (Hshort : (200 <? List.length l)%nat = false) by (apply Nat.ltb_ge; exact Hlen).
    rewrite fetchMarketNewsFrom_run, Hm, Hshort in Hrun.
    assert (Hm2 : mergeResult h2 sources st1 = Normal (filter (recent (now h2)) l)).
    { unfold mergeResult. rewrite Hfresh, Hf.
      destruct (quotaExceeded h1 st l); ran Hrun; unfold loadedArchive in *;
        cbn [after stored] in *.
      - unfold loadedArchive in Ha. rewrite Ha. f_equal.
        now apply mergedArticles_later.
      - f_equal. now apply mergedArticles_again. }
    rewrite fetchMarketNewsFrom_run, Hm2.
    assert (Hshort2 : (200 <? List.length (filter (recent (now h2)) l))%nat = false).
    { apply Nat.ltb_ge. pose proof (length_filter_le _ (recent (now h2)) l). lia. }
    rewrite Hshort2. destruct (quotaExceeded h2 st1 _); reflexivity. }
  split; [exact Hmain|].
  intros Hsame. rewrite Hmain. do 2 f_equal.
  apply aggregate_Normal in Hrun. destruct Hrun as [Hm _].
  pose proof (mergeResult_Normal _ _ _ _ Hm) as (fresh & archived & _ & _ & ->).
  rewrite Hsame. apply filter_all. intros a Ha.
  apply In_mergedArticles in Ha. exact (proj2 Ha).
Qed.

Lemma unchanged_feeds_witness :
  let h1 := Scenario.firstVisit in
  let h2 := Scenario.browser (Scenario.march12 + 7200000)
              (Scenario.onlyForexLive [Scenario.scenarioItem]) Scenario.storageFull in
  let l := [normalize h1 Scenario.forexLive Scenario.scenarioItem] in
  let st1 := snd (aggregate h1 FEED_SOURCES emptyStorage) in
  fst (fetchMarketNewsFrom FEED_SOURCES h2 st1)
  = Normal (RList (filter (recent (now h2)) l)).
Proof.
  intros h1 h2 l st1.
  refine (proj1 (unchanged_feeds_only_age_the_list h1 h2 FEED_SOURCES
                   emptyStorage st1 l _ _ _ _)).
  - vm_compute. reflexivity.
  - unfold l. cbn [List.length]. lia.
  - vm_compute. reflexivity.
  - vm_compute. discriminate.
Defined.

(** ** The archive holds one article per id *)

Section ArchiveInvariant.

Lemma archiveDistinct_preserved : forall sources h st r st',
  archiveDistinct st ->
  fetchMarketNewsFrom sources h st = (r, st') ->
  archiveDistinct st'.
Proof.
  intros sources h st r st' Hinv Hrun.
  rewrite fetchMarketNewsFrom_run in Hrun.
  destruct (mergeResult h sources st) as [merged|] eqn:Hm.
  - apply mergeResult_Normal in Hm.
    destruct Hm as (fresh & archived & _ & _ & ->).
    set (merged := mergedArticles (now h) archived fresh) in *.
    assert (Hnd : NoDup (map id merged)) by apply NoDup_mergedArticles.
    destruct (quotaExceeded h st merged).
    + destruct (200 <? List.length merged)%nat.
      * destruct (secondWriteThrows h st merged); ran Hrun;
          unfold archiveDistinct, after; cbn [stored].
        -- exact Hinv.
        -- now apply NoDup_ids_firstn.
      * ran Hrun. exact Hinv.
    + ran Hrun. exact Hnd.
  - ran Hrun. exact Hinv.
Qed.

Lemma reachable_archiveDistinct : forall st, reachable st -> archiveDistinct st.
Proof.
  induction 1 as [|sources h st r st' _ IH Hrun].
  - exact I.
  - eapply archiveDistinct_preserved; eassumption.
Qed.

Lemma returned_distinct : forall sources h st l st',
  archiveDistinct st ->
  fetchMarketNewsFrom sources h st = (Normal (RList l), st') ->
  NoDup (map id l).
Proof.
  intros sources h st l st' Hinv Hrun.
  assert (Hfb : fallbackResult st = Normal (RList l) -> NoDup (map id l)).
  { unfold fallbackResult, archiveDistinct in *.
    destruct (stored st) as [[| | |l0]|]; intros Hfb; inversion Hfb; subst;
      try constructor.
    exact Hinv. }
  rewrite fetchMarketNewsFrom_run in Hrun.
  destruct (mergeResult h sources st) as [merged|] eqn:Hm.
  - apply mergeResult_Normal in Hm.
    destruct Hm as (fresh & archived & _ & _ & ->).
    pose proof (NoDup_mergedArticles (now h) archived fresh) as Hd.
    destruct (quotaExceeded h st _).
    + destruct (200 <? _)%nat.
      * destruct (secondWriteThrows h st _); ran Hrun.
        -- apply Hfb. assumption.
        -- returned Hd.
      * ran Hrun. returned Hd.
    + ran Hrun. returned Hd.
  - ran Hrun. apply Hfb. assumption.
Qed.

Lemma failed_sources_bring_nothing : forall h sources,
  (forall src, In src sources ->
     failedSource (fetchFeed h (feedUrl src)) = true) ->
  freshArticles h sources = Normal [].
Proof.
  intros h sources Hfail. unfold freshArticles.
  rewrite pushResults_contributions.
  - cbn [app]. f_equal. induction sources as [|src sources IH]; [reflexivity|].
    cbn [flat_map]. rewrite failed_contributes_nothing.
    + apply IH. intros s Hs. apply Hfail. now right.
    + apply Hfail. now left.
  - intros src Hsrc. left. now apply Hfail.
Qed.

End ArchiveInvariant.

(** No list [fetchMarketNews] returns holds two articles of the same id,
    whichever of the two exits it takes: the merged list is the values of a
    map keyed by id, and the fallback returns an archive earlier calls wrote
    from such lists. *)
Theorem returned_ids_are_distinct :
  forall (sources : list FeedSource) (h : host) (st st' : Storage)
         (l : list NewsArticle),
    reachable st ->
    fetchMarketNewsFrom sources h st = (Normal (RList l), st') ->
    NoDup (map id l).
Proof.
  intros sources h st st' l Hreach Hrun.
  apply reachable_archiveDistinct in Hreach.
  eapply returned_distinct; eassumption.
Qed.

(** One source delivers the same item twice: it comes out once. *)
Lemma returned_ids_witness :
  let twice := Scenario.item 1 (Some "2024-03-22T09:00:00Z") in
  let h := Scenario.browser (Scenario.march22 + 60000)
             (Scenario.onlyForexLive [twice; twice]) Scenario.noQuota in
  let l := [normalize h Scenario.forexLive twice] in
  fst (fetchMarketNews h emptyStorage) = Normal (RList l)
  /\ NoDup (map id l).
Proof.
  intros twice h l. split; [vm_compute; reflexivity|].
  apply (returned_ids_are_distinct FEED_SOURCES h emptyStorage
           (snd (fetchMarketNews h emptyStorage)) l reach_empty).
  vm_compute. reflexivity.
Defined.

(** With every source down, a call adds nothing and invents nothing: the
    merge is the archive itself pruned to the retention window, in the order
    it was stored, and the call returns that list, or the archive as it is
    when both saves failed. *)
Theorem offline_refresh_shows_the_archive :
  forall (h : host) (sources : list FeedSource) (st : Storage)
         (archived : list NewsArticle),
    reachable st ->
    stored st = Some (Archived archived) ->
    (forall src, In src sources ->
       failedSource (fetchFeed h (feedUrl src)) = true) ->
    fst (mergeStep h sources st) = Normal (filter (recent (now h)) archived)
    /\ exists l, fst (fetchMarketNewsFrom sources h st) = Normal (RList l)
                 /\ (l = filter (recent (now h)) archived \/ l = archived).
Proof.
  intros h sources st archived Hreach Hst Hfail.
  pose proof (reachable_archiveDistinct st Hreach) as Hnd.
  pose proof (reachable_archiveSorted st Hreach) as Hsorted.
  unfold archiveDistinct, archiveSorted in *. rewrite Hst in *.
  assert (Hm : mergeResult h sources st
               = Normal (filter (recent (now h)) archived)).
  { unfold mergeResult, loadedArchive.
    rewrite (failed_sources_bring_nothing h sources Hfail), Hst. f_equal.
    apply merge_absorbs.
    - exact Hnd.
    - apply descending_Sorted. exact (proj1 Hsorted).
    - intros a f _ Hf. discriminate Hf.
    - intros f Hf _. discriminate Hf. }
  split; [rewrite mergeStep_fst; exact Hm|].
  rewrite fetchMarketNewsFrom_run, Hm.
  unfold fallbackResult. rewrite Hst.
  destruct (quotaExceeded h st _).
  - destruct (200 <? _)%nat.
    + destruct (secondWriteThrows h st _); eexists; split;
        try reflexivity; tauto.
    + eexists; split; [reflexivity|tauto].
  - eexists; split; [reflexivity|tauto].
Qed.

(** The scenario item is archived; eight days later every source is down and
    the storage is full: the call returns an empty list. *)
Lemma offline_refresh_witness :
  let h := Scenario.browser (Scenario.march12 + 8 * 24 * 60 * 60 * 1000)
             (fun _ => NetworkError) Scenario.storageFull in
  let st := snd (fetchMarketNews Scenario.firstVisit emptyStorage) in
  fst (mergeStep h FEED_SOURCES st) = Normal [].
Proof.
  intros h st.
  apply (offline_refresh_shows_the_archive h FEED_SOURCES st
           [normalize Scenario.firstVisit Scenario.forexLive Scenario.scenarioItem]).
  - apply (reach_cycle FEED_SOURCES Scenario.firstVisit emptyStorage
             (fst (fetchMarketNews Scenario.firstVisit emptyStorage)) st reach_empty).
    vm_compute. reflexivity.
  - vm_compute. reflexivity.
  - intros src _. reflexivity.
Defined.

(** What a call does to the storage, whatever it finds there and however it
    ends: it calls [setItem] at most twice; every list it passes holds one
    article per id, in descending order, all inside the retention window; a
    second list is the first 200 articles of the first; and the stored value
    is afterwards what it was, or the last list passed. *)
Theorem writes_of_a_call :
  forall (sources : list FeedSource) (h : host) (st : Storage),
    let st' := snd (fetchMarketNewsFrom sources h st) in
    exists ls,
      setItemCalls st' = setItemCalls st ++ ls
      /\ (ls = [] \/ (exists m, ls = [m])
          \/ exists m, ls = [m; firstn 200 m] /\ (200 < List.length m)%nat)
      /\ (forall l, In l ls ->
            NoDup (map id l) /\ descending l
            /\ forall a, In a l -> recent (now h) a = true)
      /\ (stored st' = stored st
          \/ exists l, last ls [] = l /\ ls <> [] /\ stored st' = Some (Archived l)).
Proof.
  intros sources h st st'. subst st'.
  rewrite fetchMarketNewsFrom_run.
  destruct (mergeResult h sources st) as [merged|] eqn:Hm.
  - apply mergeResult_Normal in Hm.
    destruct Hm as (fresh & archived & _ & _ & Hmerged).
    assert (Hgood : NoDup (map id merged) /\ descending merged
                    /\ forall a, In a merged -> recent (now h) a = true).
    { subst merged. split; [apply NoDup_mergedArticles|].
      split; [apply descending_mergedArticles|].
      intros a Ha. apply In_mergedArticles in Ha. exact (proj2 Ha). }
    assert (Hcut : NoDup (map id (firstn 200 merged))
                   /\ descending (firstn 200 merged)
                   /\ forall a, In a (firstn 200 merged) -> recent (now h) a = true).
    { destruct Hgood as (H1 & H2 & H3).
      split; [now apply NoDup_ids_firstn|].
      split; [now apply descending_firstn|].
      intros a Ha. apply H3. rewrite <- (firstn_skipn 200 merged).
      apply in_or_app. now left. }
    clear Hmerged.
    destruct (quotaExceeded h st merged).
    + destruct (Nat.ltb_spec 200 (List.length merged)) as [Hlong|Hshort].
      * assert (Hboth : forall l, In l [merged; firstn 200 merged] ->
                  NoDup (map id l) /\ descending l
                  /\ forall a, In a l -> recent (now h) a = true).
        { intros l [<-|[<-|[]]]; assumption. }
        destruct (secondWriteThrows h st merged); cbn [snd after setItemCalls stored];
          exists [merged; firstn 200 merged];
          (split; [reflexivity|]);
          (split; [right; right; exists merged; split; [reflexivity|exact Hlong]|]);
          (split; [exact Hboth|]).
        -- now left.
        -- right. exists (firstn 200 merged).
           split; [reflexivity|]. split; [discriminate|reflexivity].
      * cbn [snd after setItemCalls stored]. exists [merged].
        split; [reflexivity|]. split; [right; left; now exists merged|].
        split; [intros l [<-|[]]; exact Hgood|now left].
    + cbn [snd after setItemCalls stored]. exists [merged].
      split; [reflexivity|]. split; [right; left; now exists merged|].
      split; [intros l [<-|[]]; exact Hgood|].
      right. exists merged. split; [reflexivity|]. split; [discriminate|reflexivity].
  - cbn [snd]. exists []. split; [now rewrite app_nil_r|].
    split; [now left|]. split; [intros l []|now left].
Qed.

(** * The pipeline on its own storage, and the view that calls it *)

Section OwnStorage.

(** Under the key the pipeline finds nothing, or a list it wrote itself. *)
Lemma reachable_stored : forall st,
  reachable st -> stored st = None \/ exists l, stored st = Some (Archived l).
Proof.
  induction 1 as [|sources h st r st' _ IH Hrun].
  - now left.
  - rewrite fetchMarketNewsFrom_run in Hrun.
    destruct (mergeResult h sources st) as [merged|].
    + destruct (quotaExceeded h st merged).
      * destruct (200 <? List.length merged)%nat.
        -- destruct (secondWriteThrows h st merged); ran Hrun; cbn [after stored].
           ++ exact IH.
           ++ right. eexists. reflexivity.
        -- ran Hrun. exact IH.
      * ran Hrun. right. eexists. reflexivity.
    + ran Hrun. exact IH.
Qed.

Lemma reachable_returns_list : forall sources h st,
  reachable st ->
  exists l, fst (fetchMarketNewsFrom sources h st) = Normal (RList l).
Proof.
  intros sources h st Hreach.
  assert (Hfb : exists l, fallbackResult st = Normal (RList l)).
  { unfold fallbackResult.
    destruct (reachable_stored st Hreach) as [->|[l ->]]; eexists; reflexivity. }
  destruct Hfb as [l0 Hfb].
  rewrite fetchMarketNewsFrom_run.
  destruct (mergeResult h sources st) as [merged|].
  - destruct (quotaExceeded h st merged).
    + destruct (200 <? List.length merged)%nat.
      * destruct (secondWriteThrows h st merged); eexists; cbn [fst];
          [exact Hfb|reflexivity].
      * eexists. reflexivity.
    + eexists. reflexivity.
  - eexists. exact Hfb.
Qed.

Lemma StronglySorted_app_order : forall (R : NewsArticle -> NewsArticle -> Prop) l1 l2 x y,
  StronglySorted R (l1 ++ l2) -> In x l1 -> In y l2 -> R x y.
Proof.
  induction l1 as [|a l1 IH]; intros l2 x y Hs Hx Hy; [destruct Hx|].
  cbn [app] in Hs. inversion Hs as [|? ? Hs' Hall]; subst.
  destruct Hx as [->|Hx].
  - rewrite Forall_forall in Hall. apply Hall. apply in_or_app. now right.
  - eapply IH; eassumption.
Qed.

Lemma firstn_plus : forall (A : Type) (c n : nat) (l : list A),
  firstn (c + n) l = firstn c l ++ firstn n (skipn c l).
Proof.
  induction c as [|c IH]; intros n l; [reflexivity|].
  destruct l as [|a l]; cbn [Nat.add firstn skipn app].
  - now rewrite firstn_nil.
  - now rewrite IH.
Qed.

Lemma filter_out_one : forall k (l : list NewsArticle),
  NoDup (map id l) ->
  (List.length l
   <= List.length (filter (fun n => negb (String.eqb (id n) k)) l) + 1)%nat.
Proof.
  intros k l. induction l as [|a l IH]; intros Hnd; cbn [filter List.length map] in *;
    [lia|].
  inversion Hnd as [|? ? Hnot Hnd']; subst.
  destruct (String.eqb_spec (id a) k) as [Heq|Hne]; cbn [negb List.length].
  - rewrite filter_all; [lia|].
    intros x Hx. destruct (String.eqb_spec (id x) k) as [Hxk|]; [|reflexivity].
    exfalso. apply Hnot. rewrite Heq, <- Hxk. now apply in_map.
  - specialize (IH Hnd'). lia.
Qed.

End OwnStorage.

(** On a storage that only the pipeline has written, a call never rejects and
    never hands back anything but a list, whatever the feeds answer and
    however the saves go. *)
Theorem own_storage_always_yields_a_list :
  forall (sources : list FeedSource) (h : host) (st : Storage),
    reachable st ->
    exists l, fst (fetchMarketNewsFrom sources h st) = Normal (RList l).
Proof.
  intros sources h st Hreach. now apply reachable_returns_list.
Qed.

(** A source answers with items that are no array, on the storage the first
    visit left. *)
Lemma own_storage_witness :
  let h := Scenario.browser (Scenario.march12 + 7200000)
             (fun _ => Body (Some "ok") ItemsNotArray) Scenario.storageFull in
  let st := snd (fetchMarketNews Scenario.firstVisit emptyStorage) in
  exists l, fst (fetchMarketNewsFrom FEED_SOURCES h st) = Normal (RList l).
Proof.
  intros h st.
  apply (own_storage_always_yields_a_list FEED_SOURCES h st).
  apply (reach_cycle FEED_SOURCES Scenario.firstVisit emptyStorage
           (fst (fetchMarketNews Scenario.firstVisit emptyStorage)) st reach_empty).
  vm_compute. reflexivity.
Defined.

(** The [news] state of the view, from its mount on a browser that holds
    nothing under the key and through any number of refreshes, is always a
    list, in descending order of [publishedAt], with one article per id. *)
Theorem news_state_is_a_clean_list :
  forall hs : list host,
    exists l,
      fst (NewsFeed.refreshes hs NewsFeed.initialNews emptyStorage) = RList l
      /\ descending l /\ NoDup (map id l).
Proof.
  intros hs.
  assert (Hgen : forall hs st l0,
            reachable st -> descending l0 -> NoDup (map id l0) ->
            exists l, fst (NewsFeed.refreshes hs (RList l0) st) = RList l
                      /\ descending l /\ NoDup (map id l)).
  { clear hs. induction hs as [|h hs IH]; intros st l0 Hreach Hd Hnd.
    - exists l0. cbn [NewsFeed.refreshes fst]. tauto.
    - cbn [NewsFeed.refreshes]. unfold NewsFeed.fetchNews, fetchMarketNews.
      destruct (reachable_returns_list FEED_SOURCES h st Hreach) as [l Hl].
      destruct (fetchMarketNewsFrom FEED_SOURCES h st) as [r st'] eqn:Hrun.
      cbn [fst] in Hl. subst r.
      apply IH.
      + eapply reach_cycle; eassumption.
      + eapply returned_descending; [|exact Hrun].
        now apply reachable_archiveSorted.
      + eapply returned_distinct; [|exact Hrun].
        now apply reachable_archiveDistinct. }
  apply Hgen.
  - exact reach_empty.
  - apply descending_nil.
  - constructor.
Qed.

(** ** The ticker *)

(** From any index that is not negative, [nextTicker] and [prevTicker] land
    inside a ticker that is not empty, and on an index inside it each undoes
    the other. *)
Theorem ticker_navigation_stays_in_range :
  forall (len : nat) (prev : Z),
    (0 < len)%nat -> 0 <= prev ->
    (exists i, NewsFeed.nextTicker len prev = Some i
               /\ 0 <= i < Z.of_nat len
               /\ (prev < Z.of_nat len -> NewsFeed.prevTicker len i = Some prev))
    /\ (exists j, NewsFeed.prevTicker len prev = Some j
                  /\ 0 <= j < Z.of_nat len
                  /\ (prev < Z.of_nat len -> NewsFeed.nextTicker len j = Some prev)).
Proof.
  intros len prev Hlen Hprev.
  unfold NewsFeed.nextTicker, NewsFeed.prevTicker, NewsFeed.jsRem.
  set (n := Z.of_nat len). assert (Hn : 0 < n) by (unfold n; lia).
  destruct (Z.eqb_spec n 0) as [?|_]; [lia|].
  assert (Hrem : forall a, 0 <= a -> Z.rem a n = a mod n).
  { intros a Ha. apply Z.rem_mod_nonneg; lia. }
  split.
  - exists (Z.rem (prev + 1) n). rewrite Hrem by lia.
    pose proof (Z.mod_pos_bound (prev + 1) n Hn) as Hb.
    split; [reflexivity|]. split; [exact Hb|].
    intros Hin. f_equal. rewrite Hrem by lia.
    destruct (Z.eq_dec (prev + 1) n) as [Hlast|Hnot].
    + rewrite Hlast, Z.mod_same by lia.
      rewrite Z.mod_small; lia.
    + rewrite (Z.mod_small (prev + 1) n) by lia.
      symmetry. apply (Z.mod_unique_pos _ n 1 prev); lia.
  - exists (Z.rem (prev - 1 + n) n). rewrite Hrem by lia.
    pose proof (Z.mod_pos_bound (prev - 1 + n) n Hn) as Hb.
    split; [reflexivity|]. split; [exact Hb|].
    intros Hin. f_equal. rewrite Hrem by lia.
    destruct (Z.eq_dec prev 0) as [Hfirst|Hnot].
    + subst prev. rewrite (Z.mod_small (0 - 1 + n) n) by lia.
      replace (0 - 1 + n + 1) with n by lia. apply Z.mod_same. lia.
    + assert (Hj : (prev - 1 + n) mod n = prev - 1).
      { symmetry. apply (Z.mod_unique_pos _ n 1 (prev - 1)); lia. }
      rewrite Hj. rewrite Z.mod_small; lia.
Qed.

Lemma ticker_navigation_witness :
  NewsFeed.nextTicker 5 4 = Some 0 /\ NewsFeed.prevTicker 5 0 = Some 4.
Proof.
  assert (Hlen : (0 < 5)%nat) by lia.
  assert (Hprev : 0 <= 4) by lia.
  destruct (ticker_navigation_stays_in_range 5 4 Hlen Hprev)
    as [(i & Hi & _ & Hback) _].
  vm_compute in Hi. inversion Hi; subst i.
  split; [reflexivity|]. apply Hback. vm_compute. reflexivity.
Defined.

(** The ticker holds at most five articles, all breaking and all from the
    list; when the list is what [fetchMarketNews] returned on a storage of
    its own, they are the most recent breaking ones: no breaking article left
    out is more recent than one that is shown. *)
Theorem ticker_shows_latest_breaking :
  forall (sources : list FeedSource) (h : host) (st st' : Storage)
         (news : list NewsArticle),
    reachable st ->
    fetchMarketNewsFrom sources h st = (Normal (RList news), st') ->
    (List.length (NewsFeed.tickerNews news) <= 5)%nat
    /\ (forall t, In t (NewsFeed.tickerNews news) ->
          isBreaking t = true /\ In t news)
    /\ (forall t b, In t (NewsFeed.tickerNews news) ->
          In b news -> isBreaking b = true ->
          ~ In b (NewsFeed.tickerNews news) ->
          newerOrEqual t b).
Proof.
  intros sources h st st' news Hreach Hrun.
  assert (Hd : descending news).
  { eapply returned_descending; [|exact Hrun]. now apply reachable_archiveSorted. }
  unfold NewsFeed.tickerNews. generalize 5%nat as n. intros n.
  split; [apply firstn_le_length|]. split.
  - intros t Ht.
    assert (Hin : In t (filter isBreaking news)).
    { rewrite <- (firstn_skipn n (filter isBreaking news)).
      apply in_or_app. now left. }
    apply filter_In in Hin. tauto.
  - intros t b Ht Hb Hbreaking Hout.
    assert (Hs : StronglySorted newerOrEqual (filter isBreaking news)).
    { apply Sorted_StronglySorted; [intros x y z; apply newerOrEqual_trans|].
      apply filter_Sorted, descending_Sorted, Hd. }
    rewrite <- (firstn_skipn n (filter isBreaking news)) in Hs.
    apply (StronglySorted_app_order _ _ _ t b Hs Ht).
    assert (Hin : In b (filter isBreaking news)) by (apply filter_In; tauto).
    rewrite <- (firstn_skipn n (filter isBreaking news)) in Hin.
    apply in_app_or in Hin. destruct Hin as [Hin|Hin]; [contradiction|exact Hin].
Qed.

Lemma ticker_latest_witness :
  let news := [normalize Scenario.firstVisit Scenario.forexLive Scenario.scenarioItem] in
  NewsFeed.tickerNews news = news
  /\ (List.length (NewsFeed.tickerNews news) <= 5)%nat.
Proof.
  intros news. split; [vm_compute; reflexivity|].
  refine (proj1 (ticker_shows_latest_breaking FEED_SOURCES Scenario.firstVisit
                   emptyStorage (snd (fetchMarketNews Scenario.firstVisit emptyStorage))
                   news reach_empty _)).
  vm_compute. reflexivity.
Defined.

(** ** The featured article and the main list *)

(** An article is featured as soon as the category holds one; the main list
    never shows an article with the id of the featured one, so a category
    with a single article has an empty main list. *)
Theorem mainFeed_leaves_out_the_featured_article :
  forall (news : list NewsArticle) (activeCategory : string) (displayCount : nat),
    (NewsFeed.breakingNews news activeCategory = None
     <-> NewsFeed.filteredNews news activeCategory = [])
    /\ (forall b n, NewsFeed.breakingNews news activeCategory = Some b ->
          In b (NewsFeed.filteredNews news activeCategory)
          /\ (In n (NewsFeed.mainFeed news activeCategory displayCount) ->
              id n <> id b))
    /\ (forall a, NewsFeed.filteredNews news activeCategory = [a] ->
          NewsFeed.mainFeed news activeCategory displayCount = []).
Proof.
  intros news cat c. unfold NewsFeed.mainFeed, NewsFeed.visibleNews, NewsFeed.breakingNews.
  set (l := NewsFeed.filteredNews news cat).
  split; [|split].
  - destruct (find isBreaking l) as [b|] eqn:Hf.
    + split; [discriminate|]. intros Hnil. rewrite Hnil in Hf. discriminate.
    + destruct l; cbn [hd_error]; split; (reflexivity || discriminate).
  - intros b n Hb. split.
    + destruct (find isBreaking l) as [b'|] eqn:Hf.
      * inversion Hb; subst. apply find_some in Hf. tauto.
      * destruct l; [discriminate|]. inversion Hb; subst. now left.
    + rewrite Hb. intros Hn. apply filter_In in Hn. destruct Hn as [_ Hn].
      destruct (String.eqb_spec (id n) (id b)); [discriminate|assumption].
  - intros a Ha. rewrite Ha. cbn [find hd_error].
    assert (Hsome : (if isBreaking a then Some a else None) = Some a
                    \/ (if isBreaking a then Some a else None) = None)
      by (destruct (isBreaking a); tauto).
    assert (Hfeatured : match (if isBreaking a then Some a else None) with
                        | Some b => Some b | None => Some a end = Some a)
      by (destruct (isBreaking a); reflexivity).
    rewrite Hfeatured.
    destruct c; cbn [firstn filter]; [reflexivity|].
    rewrite firstn_nil, String.eqb_refl. reflexivity.
Qed.

(** On a list with one article per id, as [fetchMarketNews] returns it, the
    main list is the visible list less at most one article. *)
Theorem mainFeed_drops_at_most_one :
  forall (news : list NewsArticle) (activeCategory : string) (displayCount : nat),
    NoDup (map id news) ->
    (List.length (NewsFeed.visibleNews news activeCategory displayCount)
     <= List.length (NewsFeed.mainFeed news activeCategory displayCount) + 1)%nat.
Proof.
  intros news cat c Hnd. unfold NewsFeed.mainFeed.
  assert (Hvis : NoDup (map id (NewsFeed.visibleNews news cat c))).
  { unfold NewsFeed.visibleNews, NewsFeed.filteredNews.
    apply NoDup_ids_firstn.
    destruct (negb (String.eqb cat "All")); [now apply NoDup_ids_filter|exact Hnd]. }
  destruct (NewsFeed.breakingNews news cat) as [b|].
  - now apply filter_out_one.
  - rewrite filter_all; [lia|reflexivity].
Qed.

Lemma mainFeed_witness :
  let a := normalize Scenario.firstVisit Scenario.forexLive Scenario.scenarioItem in
  let b := normalize Scenario.firstVisit Scenario.forexLive
             (Scenario.item 1 (Some "2024-03-12T10:00:00Z")) in
  NewsFeed.mainFeed [a; b] "All" 20 = [b]
  /\ (List.length (NewsFeed.visibleNews [a; b] "All" 20)
      <= List.length (NewsFeed.mainFeed [a; b] "All" 20) + 1)%nat.
Proof.
  intros a b. split; [vm_compute; reflexivity|].
  apply (mainFeed_drops_at_most_one [a; b] "All" 20).
  vm_compute. repeat constructor; cbn [In]; intuition discriminate.
Defined.

(** ** Paging *)

(** The button is offered exactly when the count is below the number of
    articles of the category; pressing it keeps what was visible and appends
    at most twenty articles, at least one when the button was offered; with
    no button everything is visible already. *)
Theorem load_more_extends_the_visible_list :
  forall (news : list NewsArticle) (activeCategory : string) (displayCount : nat),
    let all := NewsFeed.filteredNews news activeCategory in
    let shown := NewsFeed.visibleNews news activeCategory displayCount in
    (NewsFeed.hasMore news activeCategory displayCount = true
     <-> (displayCount < List.length all)%nat)
    /\ (NewsFeed.hasMore news activeCategory displayCount = false -> shown = all)
    /\ exists more,
         NewsFeed.visibleNews news activeCategory (NewsFeed.loadMore displayCount)
         = shown ++ more
         /\ (List.length more <= 20)%nat
         /\ (NewsFeed.hasMore news activeCategory displayCount = true -> more <> []).
Proof.
  intros news cat c all shown.
  unfold NewsFeed.hasMore, NewsFeed.loadMore. subst shown.
  unfold NewsFeed.visibleNews. fold all.
  assert (Hpos : (0 < 20)%nat) by lia. revert Hpos.
  generalize 20%nat as n. intros n Hpos.
  assert (Hmore : (List.length (firstn c all) <? List.length all)%nat = true
                  <-> (c < List.length all)%nat).
  { rewrite Nat.ltb_lt, length_firstn. lia. }
  split; [exact Hmore|]. split.
  - intros Hno. apply firstn_all2.
    destruct (Nat.ltb_spec (List.length (firstn c all)) (List.length all)) as [|Hge];
      [discriminate|].
    rewrite length_firstn in Hge. lia.
  - exists (firstn n (skipn c all)).
    split; [apply firstn_plus|]. split; [apply firstn_le_length|].
    intros Hyes. apply Hmore in Hyes. intros Hnil.
    apply (f_equal (@List.length _)) in Hnil.
    rewrite length_firstn, length_skipn in Hnil. cbn [List.length] in Hnil.
    lia.
Qed.

(** ** The tabs *)

Section Tabs.

Lemma pushResults_origin : forall h rs acc fresh,
  pushResults h acc rs = Normal fresh ->
  forall a, In a fresh ->
    In a acc \/ exists r x, In r rs /\ a = normalize h (config r) x.
Proof.
  intros h. induction rs as [|r rs IH]; intros acc fresh Hrun a Ha;
    cbn [pushResults] in Hrun.
  - inversion Hrun; subst. now left.
  - destruct (pushResult h acc r) as [acc'|] eqn:Hpush; [|discriminate].
    destruct (IH _ _ Hrun a Ha) as [Hacc|(r' & x & Hr' & Heq)].
    + unfold pushResult in Hpush. destruct (isOk (status r)).
      * destruct (items r) as [| |l]; inversion Hpush; subst.
        apply in_app_or in Hacc. destruct Hacc as [Hacc|Hnew]; [now left|].
        apply in_map_iff in Hnew. destruct Hnew as (x & Hx & _).
        right. exists r, x. split; [now left|now symmetry].
      * inversion Hpush; subst. now left.
    + right. exists r', x. split; [now right|exact Heq].
Qed.

Lemma freshArticles_fromFeeds : forall h fresh,
  freshArticles h FEED_SOURCES = Normal fresh ->
  forall a, In a fresh -> fromFeeds a.
Proof.
  intros h fresh Hrun a Ha.
  destruct (pushResults_origin _ _ _ _ Hrun a Ha) as [[]|(r & x & Hr & ->)].
  unfold feedResults in Hr. apply in_map_iff in Hr.
  destruct Hr as (src & <- & Hsrc).
  unfold fromFeeds. cbn [normalize category].
  assert (Hcfg : config (settle src (fetchFeed h (feedUrl src))) = src).
  { unfold settle. destruct (fetchFeed h (feedUrl src)); reflexivity. }
  rewrite Hcfg. now apply in_map.
Qed.

Lemma merged_fromFeeds : forall nowMs archived fresh,
  (forall a, In a archived -> fromFeeds a) ->
  (forall a, In a fresh -> fromFeeds a) ->
  forall a, In a (mergedArticles nowMs archived fresh) -> fromFeeds a.
Proof.
  intros nowMs archived fresh Ha Hf a Hin.
  apply In_mergedArticles in Hin. destruct Hin as [Hin _].
  apply lookupLast_Some in Hin. destruct Hin as [Hin _].
  apply in_app_or in Hin. destruct Hin; auto.
Qed.

Lemma loadedArchive_fromFeeds : forall st archived,
  archiveFromFeeds st -> loadedArchive st = Normal archived ->
  forall a, In a archived -> fromFeeds a.
Proof.
  unfold archiveFromFeeds, loadedArchive. intros st archived Hinv Hload.
  destruct (stored st) as [[| | |l]|]; inversion Hload; subst;
    try (intros a []). exact Hinv.
Qed.

Lemma fetchMarketNews_fromFeeds : forall h st r st',
  archiveFromFeeds st ->
  fetchMarketNews h st = (r, st') ->
  archiveFromFeeds st'
  /\ forall l, r = Normal (RList l) -> forall a, In a l -> fromFeeds a.
Proof.
  intros h st r st' Hinv Hrun. unfold fetchMarketNews in Hrun.
  assert (Hfb : forall l, fallbackResult st = Normal (RList l) ->
                          forall a, In a l -> fromFeeds a).
  { unfold fallbackResult, archiveFromFeeds in *.
    destruct (stored st) as [[| | |l0]|]; intros l Hfb; inversion Hfb; subst;
      try (intros a []). exact Hinv. }
  rewrite fetchMarketNewsFrom_run in Hrun.
  destruct (mergeResult h FEED_SOURCES st) as [merged|] eqn:Hm.
  - apply mergeResult_Normal in Hm.
    destruct Hm as (fresh & archived & Hfresh & Hload & Hmerged).
    assert (Hgood : forall a, In a merged -> fromFeeds a).
    { subst merged. apply merged_fromFeeds.
      - now apply (loadedArchive_fromFeeds st).
      - now apply (freshArticles_fromFeeds h). }
    assert (Hcut : forall a, In a (firstn 200 merged) -> fromFeeds a).
    { intros a Ha. apply Hgood. rewrite <- (firstn_skipn 200 merged).
      apply in_or_app. now left. }
    clear Hmerged.
    destruct (quotaExceeded h st merged).
    + destruct (200 <? List.length merged)%nat.
      * destruct (secondWriteThrows h st merged); ran Hrun;
          unfold archiveFromFeeds, after; cbn [stored]; split;
          try assumption.
        -- intros l Hl. injection Hl as <-. exact Hgood.
      * ran Hrun. unfold archiveFromFeeds, after; cbn [stored].
        split; [exact Hinv|]. intros l Hl. injection Hl as <-. exact Hgood.
    + ran Hrun. unfold archiveFromFeeds, after; cbn [stored].
      split; [exact Hgood|]. intros l Hl. injection Hl as <-. exact Hgood.
  - ran Hrun. split; assumption.
Qed.

Lemma tabs_count : forall l : list NewsArticle,
  (forall a, In a l -> fromFeeds a) ->
  List.length l
  = list_sum (map (fun c => List.length (NewsFeed.filteredNews l c))
                (tl NewsFeed.categories)).
Proof.
  intros l Hall.
  assert (Hsum : List.length l
    = (List.length (filter (fun n => String.eqb (category n) "Sentiment") l)
       + (List.length (filter (fun n => String.eqb (category n) "Squawk") l)
          + (List.length (filter (fun n => String.eqb (category n) "Markets") l)
             + (List.length (filter (fun n => String.eqb (category n) "Crypto") l)
                + 0))))%nat).
  { induction l as [|a l IH]; [reflexivity|].
    assert (Hl : forall a, In a l -> fromFeeds a) by (intros x Hx; apply Hall; now right).
    specialize (IH Hl).
    pose proof (Hall a (or_introl eq_refl)) as Ha. unfold fromFeeds in Ha.
    cbn [filter].
    destruct Ha as [Ha|[Ha|[Ha|[Ha|[]]]]]; rewrite <- Ha;
      cbn [FEED_SOURCES feedCategory];
      repeat match goal with
             | |- context [String.eqb ?x ?y] =>
                 let b := eval vm_compute in (String.eqb x y) in
                 change (String.eqb x y) with b
             end;
      cbn [List.length]; lia. }
  exact Hsum.
Qed.

End Tabs.

(** Every article the view ever holds bears the category of one of the four
    configured feeds, each of which has its tab; so the four category tabs
    split the list under [All] between them, no article being shown under
    two tabs or under none. *)
Theorem tabs_partition_the_news :
  forall hs : list host,
    exists l,
      fst (NewsFeed.refreshes hs NewsFeed.initialNews emptyStorage) = RList l
      /\ NewsFeed.filteredNews l "All" = l
      /\ (forall a, In a l ->
            In (category a) NewsFeed.categories /\ category a <> "All")
      /\ List.length l
         = list_sum (map (fun c => List.length (NewsFeed.filteredNews l c))
                       (tl NewsFeed.categories)).
Proof.
  intros hs.
  assert (Hgen : forall hs st l0,
            reachable st -> archiveFromFeeds st ->
            (forall a, In a l0 -> fromFeeds a) ->
            exists l, fst (NewsFeed.refreshes hs (RList l0) st) = RList l
                      /\ forall a, In a l -> fromFeeds a).
  { clear hs. induction hs as [|h hs IH]; intros st l0 Hreach Hinv Hl0.
    - exists l0. cbn [NewsFeed.refreshes fst]. tauto.
    - cbn [NewsFeed.refreshes]. unfold NewsFeed.fetchNews.
      destruct (reachable_returns_list FEED_SOURCES h st Hreach) as [l Hl].
      fold (fetchMarketNews h st) in Hl.
      destruct (fetchMarketNews h st) as [r st'] eqn:Hrun.
      cbn [fst] in Hl. subst r.
      destruct (fetchMarketNews_fromFeeds h st _ st' Hinv Hrun) as [Hinv' Hret].
      apply IH.
      + eapply reach_cycle; [exact Hreach|exact Hrun].
      + exact Hinv'.
      + now apply Hret. }
  destruct (Hgen hs emptyStorage [] reach_empty I (fun a (H : In a []) => match H with end))
    as (l & Hl & Hall).
  exists l. split; [exact Hl|]. split; [reflexivity|]. split.
  - intros a Ha. specialize (Hall a Ha). unfold fromFeeds in Hall.
    destruct Hall as [H|[H|[H|[H|[]]]]]; rewrite <- H;
      (split; [cbn; tauto|discriminate]).
  - now apply tabs_count.
Qed.
